(** * r-debugger: a shallow embedding of the breakpoint table, the
    breakpoint installation and recovery, the ULEB128 decoder, the ELF
    string-table selection, the .debug_info DIE loop, the shell command
    handlers, the syscall name table, the ELF header, program header,
    section header and symbol table loaders, the DWARF abbreviation and
    line-program loaders, and the memory map. *)

From stdpp Require Import base list strings pretty gmap.
From Stdlib Require Import ZArith Lia Ascii.

Open Scope Z_scope.

(* ------------------------------------------------------------------ *)
(** ** Machine integers *)

(** [usize] and [u64] are 64-bit on the x86_64 target; arithmetic wraps
    (release build semantics). *)
Definition modulus64 : Z := 2 ^ 64.
Definition wrap64 (z : Z) : Z := z mod modulus64.

(* ------------------------------------------------------------------ *)
(** ** src/address.rs *)

(** [AddressTrait] objects: [AdrFromRel] (base + offset) and
    [AdrFromAbs]. *)
Inductive Address :=
| AdrFromRel (base : Z) (addr : Z)
| AdrFromAbs (addr : Z).

(** [AddressTrait::get]; [self.base + self.addr] is a usize addition. *)
Definition adr_get (a : Address) : Z :=
  match a with
  | AdrFromRel b x => wrap64 (b + x)
  | AdrFromAbs x => x
  end.

(* ------------------------------------------------------------------ *)
(** ** src/debugger.rs: [Breakpoint] and [BreakpointList] *)

Record Breakpoint := mkBreakpoint {
  bp_sym : string;     (* sym *)
  bp_inst : Z;         (* inst: the saved word *)
  bp_addr : Address    (* addr *)
}.

(** The table is the vector [breakpoints]. *)
Definition BreakpointList := list Breakpoint.

Definition bl_new : BreakpointList := [].

(** [self.breakpoints.iter().find(|b| b.addr.get() == addr.get())] *)
Definition bl_search (bl : BreakpointList) (a : Address) : option Breakpoint :=
  List.find (fun b => Z.eqb (adr_get (bp_addr b)) (adr_get a)) bl.

(** [has_addr] *)
Definition bl_has_addr (bl : BreakpointList) (a : Address) : bool :=
  match bl_search bl a with Some _ => true | None => false end.

(** [BreakpointList::register]: returns the bool and the new table. *)
Definition register (bl : BreakpointList) (sym : string) (bp : Address)
    (bp_inst : Z) : bool * BreakpointList :=
  match List.find (fun b => Z.eqb (adr_get (bp_addr b)) (adr_get bp)) bl with
  | Some _ => (false, bl)
  | None => (true, bl ++ [mkBreakpoint sym bp_inst bp])
  end.

(** [BreakpointList::delete]: [Vec::remove(index)] is stdpp's list
    [delete]. *)
Definition bl_delete (bl : BreakpointList) (index : nat)
    : option Breakpoint * BreakpointList :=
  let l := length bl in
  if (l =? 0)%nat || (l <=? index)%nat then (None, bl)
  else match bl !! index with
       | Some b => (Some b, delete index bl)
       | None => (None, bl) (* unreachable: index < l *)
       end.

(** A sequence of table operations, with the log of the entries that
    [register] appended. *)
Inductive bl_op :=
| OpRegister (sym : string) (bp : Address) (inst : Z)
| OpDelete (index : nat).

Definition bl_step (st : BreakpointList * list Breakpoint) (op : bl_op)
    : BreakpointList * list Breakpoint :=
  let (bl, log) := st in
  match op with
  | OpRegister s a i =>
      match register bl s a i with
      | (true, bl') => (bl', log ++ [mkBreakpoint s i a])
      | (false, bl') => (bl', log)
      end
  | OpDelete i => (snd (bl_delete bl i), log)
  end.

Definition bl_run (ops : list bl_op) : BreakpointList * list Breakpoint :=
  fold_left bl_step ops (bl_new, []).

Definition bp_key (b : Breakpoint) : Z := adr_get (bp_addr b).

(* ------------------------------------------------------------------ *)
(** ** src/debugger.rs: the [Debugger] and the tracee it controls *)

(** The tracee as the debugger sees it through ptrace: one word per
    address ([PTRACE_PEEKDATA]/[PTRACE_POKEDATA]) and the register file
    ([user_regs_struct], field name to value). *)
Definition Memory := Z -> Z.
Definition Regs := string -> Z.

Record Debugger := mkDebugger {
  dbg_entry : Z;                     (* entry: the load base *)
  dbg_breakpoint : BreakpointList;   (* breakpoint *)
  dbg_mem : Memory;                  (* tracee memory *)
  dbg_regs : Regs;                   (* tracee registers *)
  dbg_func_sym : string -> option Z; (* elf.search_func_sym(..).st_value *)
  dbg_var_sym : string -> option Z   (* elf.search_var_sym(..).st_value *)
}.

Definition set_breakpoint_list (d : Debugger) (bl : BreakpointList) : Debugger :=
  mkDebugger (dbg_entry d) bl (dbg_mem d) (dbg_regs d) (dbg_func_sym d) (dbg_var_sym d).
Definition set_mem (d : Debugger) (m : Memory) : Debugger :=
  mkDebugger (dbg_entry d) (dbg_breakpoint d) m (dbg_regs d) (dbg_func_sym d) (dbg_var_sym d).
Definition set_regs_state (d : Debugger) (r : Regs) : Debugger :=
  mkDebugger (dbg_entry d) (dbg_breakpoint d) (dbg_mem d) r (dbg_func_sym d) (dbg_var_sym d).

(** [read_mem]: one word at [addr.get()]. *)
Definition read_mem (d : Debugger) (a : Address) : Z := dbg_mem d (adr_get a).

(** [write_mem]: [ptrace::write] of one word at [addr.get()]. *)
Definition write_mem (d : Debugger) (a : Address) (v : Z) : Debugger :=
  let k := adr_get a in
  set_mem d (fun x => if Z.eqb x k then v else dbg_mem d x).

(** [Debugger::breakpoint]: patch [int 3] into the low byte, then
    register [(sym, address, inst)]. *)
Definition breakpoint (d : Debugger) (addr : Z) (sym : string) : Debugger :=
  let address := AdrFromRel (dbg_entry d) addr in
  let inst := read_mem d address in
  let int_code := Z.lor (Z.land 0xFFFF_FFFF_FFFF_FF00 inst) 0xCC in
  let d1 := write_mem d address int_code in
  set_breakpoint_list d1 (snd (register (dbg_breakpoint d1) sym address inst)).

(** [to_sym_addr]: [addr - self.entry] as a usize subtraction. *)
Definition to_sym_addr (d : Debugger) (addr : Z) : Z := wrap64 (addr - dbg_entry d).

(** The [waitpid] result inside [recover_bp]: only [Stopped] is expected,
    any other status panics. *)
Inductive WaitStatus := WSStopped | WSOther.

(** [Debugger::recover_bp]. The single step runs the original
    instruction in the tracee; [step_effect] is its effect on the tracee
    memory and registers. [None] is a panic ([unwrap] on a missing
    entry, or an unexpected wait status). *)
Definition recover_bp (d : Debugger) (rip_bp : Address)
    (step_effect : Memory * Regs -> Memory * Regs) (ws : WaitStatus)
    : option Debugger :=
  match bl_search (dbg_breakpoint d) rip_bp with
  | None => None
  | Some bp_info =>
      let d1 := write_mem d rip_bp (bp_inst bp_info) in
      let r := dbg_regs d1 in
      let d2 := set_regs_state d1
                  (fun f => if String.eqb f "rip" then adr_get rip_bp else r f) in
      let (m3, r3) := step_effect (dbg_mem d2, dbg_regs d2) in
      let d3 := set_regs_state (set_mem d2 m3) r3 in
      match ws with
      | WSStopped =>
          let addr := bp_key bp_info in
          let sym := bp_sym bp_info in
          Some (breakpoint d3 (to_sym_addr d3 addr) sym)
      | WSOther => None
      end
  end.

(* ------------------------------------------------------------------ *)
(** ** Rust string parsing used by the shell *)

(** [char::to_digit(radix)] *)
Definition digit_value (radix : Z) (c : ascii) : option Z :=
  let n := Z.of_N (N_of_ascii c) in
  let v := if (48 <=? n) && (n <=? 57) then n - 48
           else if (97 <=? n) && (n <=? 122) then n - 97 + 10
           else if (65 <=? n) && (n <=? 90) then n - 65 + 10
           else radix in
  if v <? radix then Some v else None.

(** The digit loop of [from_str_radix] with checked multiply and add
    on a [bits]-bit unsigned integer. *)
Fixpoint parse_digits (radix bits : Z) (s : string) (acc : Z) : option Z :=
  match s with
  | EmptyString => Some acc
  | String c s' =>
      match digit_value radix c with
      | None => None
      | Some v =>
          let acc' := acc * radix + v in
          if acc' <? 2 ^ bits then parse_digits radix bits s' acc' else None
      end
  end.

(** [uN::from_str_radix(src, radix)] for an unsigned type: empty input,
    a lone sign, an invalid digit and an overflow are errors; one
    leading [+] is accepted. [str::parse::<usize>] is radix 10. *)
Definition from_str_radix (radix bits : Z) (src : string) : option Z :=
  match src with
  | EmptyString => None
  | String c rest =>
      if Ascii.eqb c "+"%char then
        match rest with
        | EmptyString => None
        | _ => parse_digits radix bits rest 0
        end
      else parse_digits radix bits src 0
  end.

(** [str::trim_start_matches("0x")] *)
Fixpoint trim_start_0x (s : string) : string :=
  match s with
  | String "0"%char (String "x"%char s') => trim_start_0x s'
  | _ => s
  end.

(** [str::split_whitespace] (ASCII white space). *)
Definition is_ws (c : ascii) : bool :=
  let n := N_of_ascii c in
  (n =? 32)%N || (n =? 9)%N || (n =? 10)%N || (n =? 11)%N || (n =? 12)%N || (n =? 13)%N.

Fixpoint split_ws_go (s : string) (cur : string) : list string :=
  match s with
  | EmptyString => match cur with EmptyString => [] | _ => [cur] end
  | String c s' =>
      if is_ws c then
        match cur with
        | EmptyString => split_ws_go s' EmptyString
        | _ => cur :: split_ws_go s' EmptyString
        end
      else split_ws_go s' (cur +:+ String c EmptyString)
  end.

Definition split_whitespace (s : string) : list string := split_ws_go s EmptyString.

(* ------------------------------------------------------------------ *)
(** ** src/debugger.rs: the shell command handlers *)

(** What one pass of the shell loop ends in: it goes on reading
    commands, it leaves the loop ([c], [s]), the process panics, or it
    exits ([quit]). *)
Inductive ShellOutcome :=
| ShContinue (d : Debugger)
| ShLeave (d : Debugger)
| ShPanic
| ShExit.

(** [Debugger::release_break] *)
Definition release_break (d : Debugger) (index : nat) : bool * Debugger :=
  match bl_delete (dbg_breakpoint d) index with
  | (Some bp, bl') =>
      (true, write_mem (set_breakpoint_list d bl') (bp_addr bp) (bp_inst bp))
  | (None, bl') => (false, set_breakpoint_list d bl')
  end.

(** [Debugger::sh_release_break]: [no.parse::<usize>().unwrap()]. *)
Definition sh_release_break (d : Debugger) (no : string) : ShellOutcome :=
  match from_str_radix 10 64 no with
  | None => ShPanic
  | Some i => ShContinue (snd (release_break d (Z.to_nat i)))
  end.

(** The register names [set_regs] matches. *)
Definition settable_regs : list string :=
  ["orig_rax"; "rip"; "rsp"; "r15"; "r14"; "r13"; "r12"; "r11"; "r10";
   "r9"; "r8"; "rax"; "rcx"; "rdx"; "rsi"; "rdi"; "cs"; "eflags"; "ss";
   "fs_base"; "gs_base"; "ds"; "es"; "fs"; "gs"]%string.

(** [Debugger::set_regs]: a parse error or an unknown register prints and
    returns. *)
Definition set_regs (d : Debugger) (reg val : string) : Debugger :=
  match from_str_radix 16 64 (trim_start_0x val) with
  | None => d
  | Some v =>
      if existsb (String.eqb reg) settable_regs then
        set_regs_state d (fun f => if String.eqb f reg then v else dbg_regs d f)
      else d
  end.

(** [Debugger::sh_write_sym] *)
Definition sh_write_sym (d : Debugger) (sym val : string) : Debugger :=
  match from_str_radix 16 64 (trim_start_0x val) with
  | None => d
  | Some v =>
      match dbg_var_sym d sym with
      | Some st_value => write_mem d (AdrFromRel (dbg_entry d) st_value) v
      | None => d
      end
  end.

(** [Debugger::sh_breakpoint] *)
Definition sh_breakpoint (d : Debugger) (sym : string) : Debugger :=
  match dbg_func_sym d sym with
  | Some st_value => breakpoint d st_value sym
  | None => d
  end.

(** One command of [Debugger::shell], arms in source order. *)
Definition shell_command (d : Debugger) (coms : list string) : ShellOutcome :=
  match coms with
  | [] => ShContinue d
  | c0 :: rest =>
      let n := length coms in
      if String.eqb c0 "b" && (n =? 2)%nat then
        ShContinue (sh_breakpoint d (default EmptyString (coms !! 1%nat)))
      else if String.eqb c0 "d" && (n =? 2)%nat then
        sh_release_break d (default EmptyString (coms !! 1%nat))
      else if String.eqb c0 "p" && (n =? 2)%nat then ShContinue d
      else if String.eqb c0 "set" && (n =? 4)%nat
              && String.eqb (default EmptyString (coms !! 1%nat)) "var" then
        ShContinue (sh_write_sym d (default EmptyString (coms !! 2%nat))
                                   (default EmptyString (coms !! 3%nat)))
      else if String.eqb c0 "c" then ShLeave d
      else if String.eqb c0 "s" then ShLeave d
      else if String.eqb c0 "h" then ShContinue d
      else if String.eqb c0 "bl" then ShContinue d
      else if String.eqb c0 "info" && (n =? 2)%nat
              && String.eqb (default EmptyString (coms !! 1%nat)) "regs" then ShContinue d
      else if String.eqb c0 "info" && (n =? 2)%nat
              && String.eqb (default EmptyString (coms !! 1%nat)) "debugsec" then ShContinue d
      else if String.eqb c0 "set" && (n =? 4)%nat
              && String.eqb (default EmptyString (coms !! 1%nat)) "regs" then
        ShContinue (set_regs d (default EmptyString (coms !! 2%nat))
                               (default EmptyString (coms !! 3%nat)))
      else if String.eqb c0 "quit" then ShExit
      else ShContinue d
  end.

(** One input line of the shell loop. *)
Definition shell_line (d : Debugger) (line : string) : ShellOutcome :=
  shell_command d (split_whitespace line).

(* ------------------------------------------------------------------ *)
(** ** src/elf/leb128.rs: [ULEB128::decode] *)

(** A byte source ([std::io::Read]) is the list of the bytes it still
    holds, each a [u8] as [Z]. *)
Definition ByteSource := list Z.

(** Outcome of [decode]: [Ok((size, val))] with the rest of the source,
    [Err(DecodeError)], or a panic. *)
Inductive LebResult :=
| LebOk (size val : Z) (rest : ByteSource)
| LebDecodeError
| LebPanic.

(** [x << s] on [u64] (overflow-checked build): a shift amount of 64 or
    more panics, bits shifted out are lost. *)
Definition shl_u64 (x s : Z) : option Z :=
  if s <? 64 then Some (wrap64 (Z.shiftl x s)) else None.

(** The [loop] of [decode]. *)
Fixpoint decode_loop (reader : ByteSource) (val size s : Z) : LebResult :=
  match reader with
  | [] => LebDecodeError
  | b_val :: reader' =>
      match shl_u64 (Z.land b_val 0x7F) s with
      | None => LebPanic
      | Some sh =>
          let val' := Z.lor val sh in
          let size' := size + 1 in
          if Z.eqb 0 (Z.land b_val 0x80) then LebOk size' val' reader'
          else decode_loop reader' val' size' (s + 7)
      end
  end.

Definition decode (reader : ByteSource) : LebResult := decode_loop reader 0 0 0.

(** The accumulation the spec describes: the low 7 bits of the byte at
    position [i] weighted by [2 ^ (s + 7 * i)]. *)
Fixpoint uleb_acc (bytes : list Z) (s : Z) : Z :=
  match bytes with
  | [] => 0
  | b :: t => Z.land b 0x7F * 2 ^ s + uleb_acc t (s + 7)
  end.

(* ------------------------------------------------------------------ *)
(** ** [String::from_utf8] and the null-terminated string extractor *)

Definition in_range (lo hi b : Z) : bool := (lo <=? b) && (b <=? hi).
Definition is_cont (b : Z) : bool := in_range 0x80 0xBF b.

(** The validity check of [String::from_utf8] (shortest form, no
    surrogates, at most U+10FFFF). *)
Fixpoint utf8_valid (l : list Z) : bool :=
  match l with
  | [] => true
  | b :: t =>
      if b <? 0x80 then utf8_valid t
      else if in_range 0xC2 0xDF b then
        match t with
        | c1 :: t1 => is_cont c1 && utf8_valid t1
        | _ => false
        end
      else if in_range 0xE0 0xEF b then
        match t with
        | c1 :: c2 :: t2 =>
            (if Z.eqb b 0xE0 then in_range 0xA0 0xBF c1
             else if Z.eqb b 0xED then in_range 0x80 0x9F c1
             else is_cont c1)
            && is_cont c2 && utf8_valid t2
        | _ => false
        end
      else if in_range 0xF0 0xF4 b then
        match t with
        | c1 :: c2 :: c3 :: t3 =>
            (if Z.eqb b 0xF0 then in_range 0x90 0xBF c1
             else if Z.eqb b 0xF4 then in_range 0x80 0x8F c1
             else is_cont c1)
            && is_cont c2 && is_cont c3 && utf8_valid t3
        | _ => false
        end
      else false
  end.

(** A Rust [String] is its byte sequence; a Rocq [string] holds one byte
    per character. *)
Definition bytes_to_string (l : list Z) : string :=
  fold_right (fun b s => String (ascii_of_N (Z.to_N b)) s) EmptyString l.

(** [Iterator::take_while] *)
Fixpoint take_while {A} (p : A -> bool) (l : list A) : list A :=
  match l with
  | [] => []
  | x :: t => if p x then x :: take_while p t else []
  end.

(** [Elf64::to_string] and [DebugInfoSection::to_string] (the same body):
    [buf.iter().skip(offset).take_while(|c| c != 0)], then
    [String::from_utf8(t).unwrap()]; [None] is the panic. *)
Definition nul_term_string (buf : list Z) (offset : nat) : option string :=
  let t := take_while (fun c => negb (Z.eqb c 0)) (drop offset buf) in
  if utf8_valid t then Some (bytes_to_string t) else None.

(* ------------------------------------------------------------------ *)
(** ** src/elf/elf64.rs: section headers and the string/symbol tables *)

Inductive ShType :=
| Null | Progbit | ShmTab | StrTab | Rela | Hash | Dynamic | Note | Nobits
| Rel | Shlib | DynSym | LoProc | HiProc | LoUser | HiUser | Unknown.

Definition ShType_eqb (a b : ShType) : bool :=
  match a, b with
  | Null, Null | Progbit, Progbit | ShmTab, ShmTab | StrTab, StrTab
  | Rela, Rela | Hash, Hash | Dynamic, Dynamic | Note, Note
  | Nobits, Nobits | Rel, Rel | Shlib, Shlib | DynSym, DynSym
  | LoProc, LoProc | HiProc, HiProc | LoUser, LoUser | HiUser, HiUser
  | Unknown, Unknown => true
  | _, _ => false
  end.

(** [Elf64::to_shtype]; [ShmTab] is the code's name for SHT_SYMTAB. *)
Definition to_shtype (t : Z) : ShType :=
  if Z.eqb t 0 then Null
  else if Z.eqb t 1 then Progbit
  else if Z.eqb t 2 then ShmTab
  else if Z.eqb t 3 then StrTab
  else if Z.eqb t 4 then Rela
  else if Z.eqb t 5 then Hash
  else if Z.eqb t 6 then Dynamic
  else if Z.eqb t 7 then Note
  else if Z.eqb t 8 then Nobits
  else if Z.eqb t 9 then Rel
  else if Z.eqb t 10 then Shlib
  else if Z.eqb t 11 then DynSym
  else if Z.eqb t 0x7000_0000 then LoProc
  else if Z.eqb t 0x7FFF_FFFF then HiProc
  else if Z.eqb t 0x8000_0000 then LoUser
  else if Z.eqb t 0x8FFF_FFFF then HiUser
  else Unknown.

Record ElfSecHeader := mkElfSecHeader {
  sh_name : Z; sh_type : Z; sh_flags : Z; sh_addr : Z; sh_offset : Z;
  sh_size : Z; sh_link : Z; sh_info : Z; sh_addralign : Z; sh_entsize : Z;
  sh_no : Z;         (* the header's index, set by load_sec_header *)
  sh_rname : string  (* the resolved section name *)
}.

(** [self.sec_header.iter().filter(|s| to_shtype(s.sh_type) == ShmTab)
    .collect::<Vec<_>>().pop()] in [load_symtab]. *)
Definition find_symtab (sec_header : list ElfSecHeader) : option ElfSecHeader :=
  last (List.filter (fun s => ShType_eqb (to_shtype (sh_type s)) ShmTab) sec_header).

(** The selection in [read_strtab]: StrTab sections other than
    [e_shstrndx], then [.pop()]. *)
Definition find_strtab (e_shstrndx : Z) (sec_header : list ElfSecHeader)
    : option ElfSecHeader :=
  last (List.filter (fun s => ShType_eqb (to_shtype (sh_type s)) StrTab
                         && negb (Z.eqb (sh_no s) e_shstrndx)) sec_header).

(** The selection in [read_strtab_of_sec]. *)
Definition find_strtab_of_sec (e_shstrndx : Z) (sec_header : list ElfSecHeader)
    : option ElfSecHeader :=
  last (List.filter (fun s => ShType_eqb (to_shtype (sh_type s)) StrTab
                         && Z.eqb (sh_no s) e_shstrndx) sec_header).

(** The sections [load_symtab] works on: [read_strtab] first (its
    NotFound error returns early), then the symbol table. [None] is an
    [Err(NotFound)]. The result is (string table, symbol table). *)
Definition load_symtab_sections (e_shstrndx : Z) (sec_header : list ElfSecHeader)
    : option (ElfSecHeader * ElfSecHeader) :=
  match find_strtab e_shstrndx sec_header with
  | None => None
  | Some strtab =>
      match find_symtab sec_header with
      | None => None
      | Some symtab => Some (strtab, symtab)
      end
  end.

(* ------------------------------------------------------------------ *)
(** ** src/elf/dwarf.rs: the .debug_info DIE loop *)

Module DwFormInfo.
Inductive t :=
| Unknown | Addr | Block2 | Block4 | Data2 | Data4 | Data8 | String | Block
| Block1 | Data1 | Flag | Sdata | Strp | Udata | RefAddr | Ref1 | Ref2
| Ref4 | Ref8 | RefUdata | Indirect | SecOffset | Exprloc | FlagPresent
| RefSig8 | End.
End DwFormInfo.

(** [DwInfo::to_dw_form] *)
Definition to_dw_form (form : Z) : DwFormInfo.t :=
  if Z.eqb form 0x0 then DwFormInfo.End
  else if Z.eqb form 0x1 then DwFormInfo.Addr
  else if Z.eqb form 0x3 then DwFormInfo.Block2
  else if Z.eqb form 0x4 then DwFormInfo.Block4
  else if Z.eqb form 0x5 then DwFormInfo.Data2
  else if Z.eqb form 0x6 then DwFormInfo.Data4
  else if Z.eqb form 0x7 then DwFormInfo.Data8
  else if Z.eqb form 0x8 then DwFormInfo.String
  else if Z.eqb form 0x9 then DwFormInfo.Block
  else if Z.eqb form 0xA then DwFormInfo.Block1
  else if Z.eqb form 0xB then DwFormInfo.Data1
  else if Z.eqb form 0xC then DwFormInfo.Flag
  else if Z.eqb form 0xD then DwFormInfo.Sdata
  else if Z.eqb form 0xE then DwFormInfo.Strp
  else if Z.eqb form 0xF then DwFormInfo.Udata
  else if Z.eqb form 0x10 then DwFormInfo.RefAddr
  else if Z.eqb form 0x11 then DwFormInfo.Ref1
  else if Z.eqb form 0x12 then DwFormInfo.Ref2
  else if Z.eqb form 0x13 then DwFormInfo.Ref4
  else if Z.eqb form 0x14 then DwFormInfo.Ref8
  else if Z.eqb form 0x15 then DwFormInfo.RefUdata
  else if Z.eqb form 0x16 then DwFormInfo.Indirect
  else if Z.eqb form 0x17 then DwFormInfo.SecOffset
  else if Z.eqb form 0x18 then DwFormInfo.Exprloc
  else if Z.eqb form 0x19 then DwFormInfo.FlagPresent
  else if Z.eqb form 0x20 then DwFormInfo.RefSig8
  else DwFormInfo.Unknown.

(** [DebugAbbRevRecord] *)
Record DebugAbbRevRecord := mkDebugAbbRevRecord {
  ab_abbrev_no : Z; ab_tag : Z; ab_has_child : Z;
  attr_name : list Z; attr_form : list Z
}.

(** [DebugInfoEntry]; [attr] and [form] are kept as the raw codes that
    the constructor passes to [to_dw_at] and [to_dw_form]. *)
Record DebugInfoEntry := mkDebugInfoEntry {
  die_no : Z; die_attr : Z; die_form : Z; die_data : string
}.

(** [reader.read_exact(&mut buf)] for a buffer of [n] bytes. *)
Definition read_exact (n : nat) (r : ByteSource) : option (list Z * ByteSource) :=
  if (n <=? length r)%nat then Some (take n r, drop n r) else None.

(** [uN::from_le_bytes] *)
Fixpoint from_le_bytes (l : list Z) : Z :=
  match l with
  | [] => 0
  | b :: t => b + 256 * from_le_bytes t
  end.

(** [to_string()] of an unsigned integer: its decimal digits. *)
Definition u_to_string (n : Z) : string := pretty (Z.to_N n).

(** A fixed-size little-endian value, rendered in decimal. *)
Definition read_fixed (n : nat) (r : ByteSource) : option (string * Z * ByteSource) :=
  match read_exact n r with
  | Some (b, r') => Some (u_to_string (from_le_bytes b), Z.of_nat n, r')
  | None => None
  end.

(** The [DwFormInfo::String] loop: bytes up to and including the NUL. *)
Fixpoint read_cstring (r : ByteSource) : option (list Z * ByteSource) :=
  match r with
  | [] => None
  | b :: r' =>
      if Z.eqb b 0 then Some ([b], r')
      else match read_cstring r' with
           | Some (st, r2) => Some (b :: st, r2)
           | None => None
           end
  end.

(** One arm of the [match Self::to_dw_form(form)] in [parse]: the
    value text, the bytes added to [read_size], and the rest of the
    source. [None] is a panic. *)
Definition read_form (str_buf : list Z) (form : Z) (r : ByteSource)
    : option (string * Z * ByteSource) :=
  match to_dw_form form with
  | DwFormInfo.Strp =>
      match read_exact 4 r with
      | Some (b, r') =>
          match nul_term_string str_buf (Z.to_nat (from_le_bytes b)) with
          | Some s => Some (s, 4, r')
          | None => None
          end
      | None => None
      end
  | DwFormInfo.Addr => read_fixed 8 r
  | DwFormInfo.Data1 => read_fixed 1 r
  | DwFormInfo.Data2 => read_fixed 2 r
  | DwFormInfo.Data4 => read_fixed 4 r
  | DwFormInfo.Data8 => read_fixed 8 r
  | DwFormInfo.SecOffset => read_fixed 4 r
  | DwFormInfo.Ref1 => read_fixed 1 r
  | DwFormInfo.Ref2 => read_fixed 2 r
  | DwFormInfo.Ref4 => read_fixed 4 r
  | DwFormInfo.Ref8 => read_fixed 8 r
  | DwFormInfo.Sdata | DwFormInfo.Udata =>
      match decode r with
      | LebOk size data r' => Some (u_to_string data, size, r')
      | _ => None
      end
  | DwFormInfo.String =>
      match read_cstring r with
      | Some (st, r') =>
          if utf8_valid st then Some (bytes_to_string st, Z.of_nat (length st), r')
          else None
      | None => None
      end
  | DwFormInfo.Exprloc =>
      match decode r with
      | LebOk size data r' =>
          match read_exact (Z.to_nat data) r' with
          | Some (_, r'') => Some (u_to_string data, size + data, r'')
          | None => None
          end
      | _ => None
      end
  | DwFormInfo.FlagPresent => Some ("flag is presetn"%string, 0, r)
  | DwFormInfo.End => Some ("value: 0"%string, 0, r)
  | _ => None
  end.

(** The [for (form, at) in attr_form.zip(attr_name)] loop: one DIE
    record per attribute. *)
Fixpoint read_attrs (str_buf : list Z) (abbrev_no : Z) (fas : list (Z * Z))
    (r : ByteSource) (read_size : Z) (dies : list DebugInfoEntry)
    : option (Z * list DebugInfoEntry * ByteSource) :=
  match fas with
  | [] => Some (read_size, dies, r)
  | (form, attr) :: fas' =>
      match read_form str_buf form r with
      | None => None
      | Some (data, n, r') =>
          read_attrs str_buf abbrev_no fas' r' (read_size + n)
                     (dies ++ [mkDebugInfoEntry abbrev_no attr form data])
      end
  end.

Definition wrap32 (z : Z) : Z := z mod 2 ^ 32.

(** Outcome of [parse]: the loop broke with [read_size], the CU's DIE
    list and the rest of the source; or it panicked. [PFuel] is the
    exhaustion of the iteration bound, which [parse] sets above the
    number of available bytes (each iteration consumes one). *)
Inductive ParseResult :=
| PDone (read_size : Z) (dies : list DebugInfoEntry) (rest : ByteSource)
| PPanic
| PFuel.

(** The [loop] of [DebugInfoSection::parse]; [len] is [cu_h.len] and
    [dies] is [cu_h.dies]. *)
Fixpoint parse_loop (fuel : nat) (len : Z) (abbrev : list DebugAbbRevRecord)
    (str_buf : list Z) (r : ByteSource) (read_size : Z)
    (dies : list DebugInfoEntry) : ParseResult :=
  match fuel with
  | O => PFuel
  | S fuel' =>
      match decode r with
      | LebOk size abbrev_no r1 =>
          let read_size1 := read_size + size in
          let end_ := wrap32 (read_size1 + 7) in
          if Z.eqb len end_ then PDone read_size1 dies r1
          else if Z.eqb 0 abbrev_no then
            parse_loop fuel' len abbrev str_buf r1 read_size1 dies
          else
            let index := abbrev_no - 1 in
            match abbrev !! Z.to_nat index with
            | None => PPanic
            | Some record =>
                match read_attrs str_buf abbrev_no
                        (combine (attr_form record) (attr_name record))
                        r1 read_size1 dies with
                | None => PPanic
                | Some (rs, dies', r2) =>
                    parse_loop fuel' len abbrev str_buf r2 rs dies'
                end
            end
      | _ => PPanic
      end
  end.

(** [DebugInfoSection::parse]: [read_size] starts at 0, right after the
    CU prologue. *)
Definition parse (len : Z) (abbrev : list DebugAbbRevRecord) (str_buf : list Z)
    (r : ByteSource) (dies : list DebugInfoEntry) : ParseResult :=
  parse_loop (S (length r)) len abbrev str_buf r 0 dies.

(* ------------------------------------------------------------------ *)
(** ** src/stracer.rs: [Tracer::to_syscall] *)

(** The [libc::SYS_*] constants of x86_64 Linux. *)
Definition SYS_read := 0.
Definition SYS_write := 1.
Definition SYS_open := 2.
Definition SYS_close := 3.
Definition SYS_stat := 4.
Definition SYS_fstat := 5.
Definition SYS_mmap := 9.
Definition SYS_mprotect := 10.
Definition SYS_munmap := 11.
Definition SYS_brk := 12.
Definition SYS_pread64 := 17.
Definition SYS_pwrite64 := 18.
Definition SYS_readv := 19.
Definition SYS_writev := 20.
Definition SYS_access := 21.
Definition SYS_nanosleep := 35.
Definition SYS_exit := 60.
Definition SYS_arch_prctl := 158.
Definition SYS_clock_nanosleep := 230.
Definition SYS_exit_group := 231.
Definition SYS_openat := 257.
Definition SYS_preadv := 295.
Definition SYS_pwritev := 296.

(** [Tracer::to_syscall], arms in source order. *)
Definition to_syscall (no : Z) : string :=
  if Z.eqb no SYS_read then "read"
  else if Z.eqb no SYS_write then "write"
  else if Z.eqb no SYS_open then "open"
  else if Z.eqb no SYS_close then "close"
  else if Z.eqb no SYS_stat then "stat"
  else if Z.eqb no SYS_fstat then "fstat"
  else if Z.eqb no SYS_mmap then "mmap"
  else if Z.eqb no SYS_munmap then "munmap"
  else if Z.eqb no SYS_brk then "brk"
  else if Z.eqb no SYS_pread64 then "pread"
  else if Z.eqb no SYS_pwrite64 then "pwrite"
  else if Z.eqb no SYS_readv then "readv"
  else if Z.eqb no SYS_writev then "writev"
  else if Z.eqb no SYS_access then "access"
  else if Z.eqb no SYS_preadv then "preadv"
  else if Z.eqb no SYS_pwritev then "pwritev"
  else if Z.eqb no SYS_mprotect then "mprotect"
  else if Z.eqb no SYS_arch_prctl then "arch_prctl"
  else if Z.eqb no SYS_exit then "exit"
  else if Z.eqb no SYS_exit_group then "exit_group"
  else if Z.eqb no SYS_openat then "openat"
  else if Z.eqb no SYS_clock_nanosleep then "clock_nanosleep"
  else if Z.eqb no SYS_nanosleep then "nanosleep"
  else "unknown system call".

(** A number-to-name table as a list, looked up front to back. *)
Fixpoint syscall_lookup (tbl : list (Z * string)) (no : Z) : string :=
  match tbl with
  | [] => "unknown system call"
  | (k, s) :: t => if Z.eqb no k then s else syscall_lookup t no
  end.

(** The table as the spec lists it. *)
Definition spec_syscall_table : list (Z * string) :=
  [(SYS_read, "read"); (SYS_write, "write"); (SYS_open, "open");
   (SYS_close, "close"); (SYS_stat, "stat"); (SYS_fstat, "fstat");
   (SYS_mmap, "mmap"); (SYS_munmap, "munmap"); (SYS_brk, "brk");
   (SYS_pread64, "pread64"); (SYS_pwrite64, "pwrite64");
   (SYS_readv, "readv"); (SYS_writev, "writev"); (SYS_access, "access");
   (SYS_preadv, "preadv"); (SYS_pwritev, "pwritev");
   (SYS_mprotect, "mprotect"); (SYS_arch_prctl, "arch_prctl");
   (SYS_exit, "exit"); (SYS_exit_group, "exit_group");
   (SYS_openat, "openat"); (SYS_clock_nanosleep, "clock_nanosleep");
   (SYS_nanosleep, "nanosleep")]%string.

(** The same table with the names the code prints for [pread64] and
    [pwrite64]. *)
Definition printed_syscall_table : list (Z * string) :=
  [(SYS_read, "read"); (SYS_write, "write"); (SYS_open, "open");
   (SYS_close, "close"); (SYS_stat, "stat"); (SYS_fstat, "fstat");
   (SYS_mmap, "mmap"); (SYS_munmap, "munmap"); (SYS_brk, "brk");
   (SYS_pread64, "pread"); (SYS_pwrite64, "pwrite");
   (SYS_readv, "readv"); (SYS_writev, "writev"); (SYS_access, "access");
   (SYS_preadv, "preadv"); (SYS_pwritev, "pwritev");
   (SYS_mprotect, "mprotect"); (SYS_arch_prctl, "arch_prctl");
   (SYS_exit, "exit"); (SYS_exit_group, "exit_group");
   (SYS_openat, "openat"); (SYS_clock_nanosleep, "clock_nanosleep");
   (SYS_nanosleep, "nanosleep")]%string.

(* ------------------------------------------------------------------ *)
(** ** src/debugger.rs: reading a variable and listing the breakpoints *)


(** What [Debugger::show_break] prints: the line for an empty table, or
    one line [(i, sym, to_sym_addr(addr.get()))] per entry. *)
Inductive BreakListing :=
| NotEntried
| Listing (lines : list (nat * string * Z)).

Definition show_break (d : Debugger) : BreakListing :=
  match dbg_breakpoint d with
  | [] => NotEntried
  | bps => Listing (imap (fun i b => (i, bp_sym b, to_sym_addr d (adr_get (bp_addr b)))) bps)
  end.

(* ------------------------------------------------------------------ *)
(** ** [std::io::Result] and reading a file *)

(** The [io::ErrorKind]s the loaders produce. *)
Inductive ErrorKind := NotFound | UnexpectedEof | Other.

(** The outcome of a loader: [Ok(a)], [Err(kind)], a panic, or the
    exhaustion of the iteration bound of a [loop] whose every pass
    consumes at least one byte (the bound is set above the number of
    bytes). *)
Inductive IoResult (A : Type) :=
| IoOk (a : A)
| IoErr (e : ErrorKind)
| IoPanic
| IoFuel.
Arguments IoOk {A} a.
Arguments IoErr {A} e.
Arguments IoPanic {A}.
Arguments IoFuel {A}.

(** [?] propagates the error; a panic or exhausted loop stays one. *)
Global Instance io_ret : MRet IoResult := fun A a => IoOk a.
Global Instance io_bind : MBind IoResult := fun A B f m =>
  match m with
  | IoOk a => f a
  | IoErr e => IoErr e
  | IoPanic => IoPanic
  | IoFuel => IoFuel
  end.

(** [reader.read_exact(&mut buf)?] for a buffer of [n] bytes. *)
Definition read_exact_io (n : nat) (r : ByteSource) : IoResult (list Z * ByteSource) :=
  match read_exact n r with
  | Some p => IoOk p
  | None => IoErr UnexpectedEof
  end.

(** [read_exact] into an [n]-byte buffer, then [uN::from_le_bytes]. *)
Definition read_le (n : nat) (r : ByteSource) : IoResult (Z * ByteSource) :=
  '(b, r') ← read_exact_io n r; mret (from_le_bytes b, r').

(** A [File] is its bytes; [reader.seek(SeekFrom::Start(p))] leaves the
    bytes from position [p] on (none past the end, which [seek] allows). *)
Definition seek (file : list Z) (p : Z) : ByteSource := drop (Z.to_nat p) file.

(* ------------------------------------------------------------------ *)
(** ** src/elf/elf64.rs: the loaders *)

Record ElfHeader := mkElfHeader {
  e_ident : list Z; e_type : Z; e_machine : Z; e_version : Z; e_entry : Z;
  e_phoff : Z; e_shoff : Z; e_flags : Z; e_ehsize : Z; e_phentsize : Z;
  e_phnum : Z; e_shentsize : Z; e_shnum : Z; e_shstrndx : Z
}.

Record ElfProgHeader := mkElfProgHeader {
  p_type : Z; p_flags : Z; p_offset : Z; p_vaddr : Z; p_paddr : Z;
  p_filesz : Z; p_memsz : Z; p_align : Z
}.

(** [ElfProgHeader::new] and [ElfSecHeader::new] *)
Definition prog_new : ElfProgHeader := mkElfProgHeader 0 0 0 0 0 0 0 0.
Definition sec_new : ElfSecHeader := mkElfSecHeader 0 0 0 0 0 0 0 0 0 0 0 "".

Module StBind.
Inductive t := Unknown | Local | Global | Weak.
End StBind.

Module StType.
Inductive t := Unknown | Notype | Object | Func.
Definition eqb (a b : t) : bool :=
  match a, b with
  | Unknown, Unknown | Notype, Notype | Object, Object | Func, Func => true
  | _, _ => false
  end.
End StType.

Record SymTbl := mkSymTbl {
  st_name : Z; st_info : Z; st_other : Z; st_shndx : Z; st_value : Z;
  st_size : Z; st_rname : string; st_bind : StBind.t; st_type : StType.t
}.

(** [SymTbl::new] *)
Definition sym_new : SymTbl := mkSymTbl 0 0 0 0 0 0 "" StBind.Unknown StType.Unknown.

(** The fields of [Elf64] the loaders fill in. *)
Record Elf64 := mkElf64 {
  elf_header : ElfHeader;
  prog_header : list ElfProgHeader;
  sec_header : list ElfSecHeader;
  sym_tbl : list SymTbl
}.

(** [Elf64::new] *)
Definition elf_new : Elf64 :=
  mkElf64 (mkElfHeader (repeat 0 16) 0 0 0 0 0 0 0 0 0 0 0 0 0) [] [] [].

(** [Elf64::load_elf_header]: the fields in file order; [e_type] is read
    but not stored; then the two header vectors are resized. *)
Definition load_elf_header (e : Elf64) (r : ByteSource) : IoResult (Elf64 * ByteSource) :=
  '(ident, r) ← read_exact_io 16 r;
  '(_, r) ← read_le 2 r;
  '(machine, r) ← read_le 2 r;
  '(version, r) ← read_le 4 r;
  '(entry, r) ← read_le 8 r;
  '(phoff, r) ← read_le 8 r;
  '(shoff, r) ← read_le 8 r;
  '(flags, r) ← read_le 4 r;
  '(ehsize, r) ← read_le 2 r;
  '(phentsize, r) ← read_le 2 r;
  '(phnum, r) ← read_le 2 r;
  '(shentsize, r) ← read_le 2 r;
  '(shnum, r) ← read_le 2 r;
  '(shstrndx, r) ← read_le 2 r;
  let h := mkElfHeader ident (e_type (elf_header e)) machine version entry phoff shoff
             flags ehsize phentsize phnum shentsize shnum shstrndx in
  mret (mkElf64 h (resize (Z.to_nat phnum) prog_new (prog_header e))
                  (resize (Z.to_nat shnum) sec_new (sec_header e)) (sym_tbl e), r).

(** The [for i in 0..e_phnum] loop of [load_prog_header]. Seven fields
    are read per entry; the one read after [p_paddr] goes to [p_memsz]
    and [p_filesz] keeps its value. [self.prog_header[i]] panics out of
    range. *)
Fixpoint load_prog_loop (cnt i : nat) (ph : list ElfProgHeader) (r : ByteSource)
    : IoResult (list ElfProgHeader * ByteSource) :=
  match cnt with
  | O => mret (ph, r)
  | S cnt' =>
      '(ty, r) ← read_le 4 r;
      match ph !! i with
      | None => IoPanic
      | Some old =>
          '(flags, r) ← read_le 4 r;
          '(offset, r) ← read_le 8 r;
          '(vaddr, r) ← read_le 8 r;
          '(paddr, r) ← read_le 8 r;
          '(memsz, r) ← read_le 8 r;
          '(align, r) ← read_le 8 r;
          load_prog_loop cnt' (S i)
            (<[i := mkElfProgHeader ty flags offset vaddr paddr (p_filesz old) memsz align]> ph) r
      end
  end.

(** [Elf64::load_prog_header] *)
Definition load_prog_header (file : list Z) (e : Elf64) : IoResult Elf64 :=
  let r := seek file (e_phoff (elf_header e)) in
  '(ph, _) ← load_prog_loop (Z.to_nat (e_phnum (elf_header e))) 0 (prog_header e) r;
  mret (mkElf64 (elf_header e) ph (sec_header e) (sym_tbl e)).

(** The [for i in 0..e_shnum] loop of [load_sec_header]: ten fields per
    entry, and [sh_no] set to [i]. *)
Fixpoint load_sec_loop (cnt i : nat) (sh : list ElfSecHeader) (r : ByteSource)
    : IoResult (list ElfSecHeader * ByteSource) :=
  match cnt with
  | O => mret (sh, r)
  | S cnt' =>
      '(name, r) ← read_le 4 r;
      match sh !! i with
      | None => IoPanic
      | Some old =>
          '(ty, r) ← read_le 4 r;
          '(flags, r) ← read_le 8 r;
          '(addr, r) ← read_le 8 r;
          '(offset, r) ← read_le 8 r;
          '(size, r) ← read_le 8 r;
          '(link, r) ← read_le 4 r;
          '(info, r) ← read_le 4 r;
          '(addralign, r) ← read_le 8 r;
          '(entsize, r) ← read_le 8 r;
          load_sec_loop cnt' (S i)
            (<[i := mkElfSecHeader name ty flags addr offset size link info addralign
                      entsize (Z.of_nat i) (sh_rname old)]> sh) r
      end
  end.

(** Reading the [sh_size] bytes of a section. *)
Definition read_section (file : list Z) (s : ElfSecHeader) : IoResult (list Z) :=
  '(buf, _) ← read_exact_io (Z.to_nat (sh_size s)) (seek file (sh_offset s));
  mret buf.

(** [Elf64::read_strtab_of_sec] *)
Definition read_strtab_of_sec (file : list Z) (e_shstrndx : Z) (sh : list ElfSecHeader)
    : IoResult (list Z) :=
  match find_strtab_of_sec e_shstrndx sh with
  | None => IoErr NotFound
  | Some strtab => read_section file strtab
  end.

(** [Elf64::read_strtab] *)
Definition read_strtab (file : list Z) (e_shstrndx : Z) (sh : list ElfSecHeader)
    : IoResult (list Z) :=
  match find_strtab e_shstrndx sh with
  | None => IoErr NotFound
  | Some strtab => read_section file strtab
  end.

(** The second loop of [load_sec_header]: [sh_rname] from the section
    name string table ([to_string] panics on invalid UTF-8). *)
Fixpoint sec_name_loop (cnt i : nat) (buf : list Z) (sh : list ElfSecHeader)
    : IoResult (list ElfSecHeader) :=
  match cnt with
  | O => mret sh
  | S cnt' =>
      match sh !! i with
      | None => IoPanic
      | Some s =>
          match nul_term_string buf (Z.to_nat (sh_name s)) with
          | None => IoPanic
          | Some name =>
              sec_name_loop cnt' (S i) buf
                (<[i := mkElfSecHeader (sh_name s) (sh_type s) (sh_flags s) (sh_addr s)
                          (sh_offset s) (sh_size s) (sh_link s) (sh_info s)
                          (sh_addralign s) (sh_entsize s) (sh_no s) name]> sh)
          end
      end
  end.

(** [Elf64::load_sec_header] *)
Definition load_sec_header (file : list Z) (e : Elf64) : IoResult Elf64 :=
  let h := elf_header e in
  '(sh, _) ← load_sec_loop (Z.to_nat (e_shnum h)) 0 (sec_header e) (seek file (e_shoff h));
  buf ← read_strtab_of_sec file (e_shstrndx h) sh;
  sh ← sec_name_loop (Z.to_nat (e_shnum h)) 0 buf sh;
  mret (mkElf64 h (prog_header e) sh (sym_tbl e)).

(** [Elf64::to_st_type]: the low nibble of [st_info]. *)
Definition to_st_type (t : Z) : StType.t :=
  let x := Z.land t 0x0F in
  if Z.eqb x 0 then StType.Notype
  else if Z.eqb x 1 then StType.Object
  else if Z.eqb x 2 then StType.Func
  else StType.Unknown.

(** [Elf64::to_st_bind]: the high nibble of [st_info]. *)
Definition to_st_bind (t : Z) : StBind.t :=
  let x := Z.shiftr (Z.land t 0xF0) 4 in
  if Z.eqb x 0 then StBind.Local
  else if Z.eqb x 1 then StBind.Global
  else if Z.eqb x 2 then StBind.Weak
  else StBind.Unknown.

(** The [for i in 0..count] loop of [load_symtab]: [st_rname] is
    resolved right after [st_name] is read. *)
Fixpoint load_sym_loop (cnt i : nat) (strtab_buf : list Z) (tbl : list SymTbl)
    (r : ByteSource) : IoResult (list SymTbl * ByteSource) :=
  match cnt with
  | O => mret (tbl, r)
  | S cnt' =>
      '(offset, r) ← read_le 4 r;
      match tbl !! i with
      | None => IoPanic
      | Some _ =>
          match nul_term_string strtab_buf (Z.to_nat offset) with
          | None => IoPanic
          | Some rname =>
              '(info, r) ← read_le 1 r;
              '(other, r) ← read_le 1 r;
              '(shndx, r) ← read_le 2 r;
              '(value, r) ← read_le 8 r;
              '(size, r) ← read_le 8 r;
              load_sym_loop cnt' (S i) strtab_buf
                (<[i := mkSymTbl offset info other shndx value size rname
                          (to_st_bind info) (to_st_type info)]> tbl) r
          end
      end
  end.

(** [Elf64::load_symtab]: [sh_size / sh_entsize] is a [u64] division,
    which panics when [sh_entsize] is 0. *)
Definition load_symtab (file : list Z) (e : Elf64) : IoResult Elf64 :=
  strtab_buf ← read_strtab file (e_shstrndx (elf_header e)) (sec_header e);
  match find_symtab (sec_header e) with
  | None => IoErr NotFound
  | Some symtab =>
      if Z.eqb (sh_entsize symtab) 0 then IoPanic
      else
        let count := Z.to_nat (sh_size symtab / sh_entsize symtab) in
        '(tbl, _) ← load_sym_loop count 0 strtab_buf (resize count sym_new (sym_tbl e))
                      (seek file (sh_offset symtab));
        mret (mkElf64 (elf_header e) (prog_header e) (sec_header e) tbl)
  end.

(** [Elf64::search_func_sym] and [Elf64::search_var_sym];
    [demangle] is the symbolic-demangle function. *)
Definition search_func_sym (demangle : string -> string) (e : Elf64) (sym_name : string)
    : option SymTbl :=
  List.find (fun s => String.eqb sym_name (demangle (st_rname s))
                      && StType.eqb (st_type s) StType.Func) (sym_tbl e).

Definition search_var_sym (demangle : string -> string) (e : Elf64) (sym_name : string)
    : option SymTbl :=
  List.find (fun s => String.eqb sym_name (demangle (st_rname s))
                      && StType.eqb (st_type s) StType.Object) (sym_tbl e).

(* ------------------------------------------------------------------ *)
(** ** src/elf/dwarf.rs: the abbreviation and line-table loaders *)

(** [Self::decode(reader).unwrap().1]: a decode error panics. *)
Definition decode_unwrap (r : ByteSource) : IoResult (Z * ByteSource) :=
  match decode r with
  | LebOk _ v r' => IoOk (v, r')
  | _ => IoPanic
  end.

(** The inner [loop] of [DebugAbbRevSection::load]: (name, form) pairs
    up to and including (0, 0). Every pass consumes at least two bytes. *)
Fixpoint abbrev_attr_loop (fuel : nat) (names forms : list Z) (r : ByteSource)
    : IoResult (list Z * list Z * ByteSource) :=
  match fuel with
  | O => IoFuel
  | S fuel' =>
      '(attr_name, r) ← decode_unwrap r;
      '(attr_form, r) ← decode_unwrap r;
      let names := names ++ [attr_name] in
      let forms := forms ++ [attr_form] in
      if Z.eqb 0 attr_name && Z.eqb 0 attr_form then mret (names, forms, r)
      else abbrev_attr_loop fuel' names forms r
  end.

(** The outer [loop] of [DebugAbbRevSection::load]: a record per
    nonzero abbreviation code, pushed onto [abb_rev]; code 0 ends it.
    Every pass consumes at least one byte. *)
Fixpoint abbrev_load_loop (fuel : nat) (abb_rev : list DebugAbbRevRecord) (r : ByteSource)
    : IoResult (list DebugAbbRevRecord * ByteSource) :=
  match fuel with
  | O => IoFuel
  | S fuel' =>
      '(abbrev_no, r) ← decode_unwrap r;
      if Z.eqb 0 abbrev_no then mret (abb_rev, r)
      else
        '(tag, r) ← decode_unwrap r;
        '(has_child, r) ← read_le 1 r;
        '(names, forms, r) ← abbrev_attr_loop (S (length r)) [] [] r;
        abbrev_load_loop fuel'
          (abb_rev ++ [mkDebugAbbRevRecord abbrev_no tag has_child names forms]) r
  end.

(** [DebugAbbRevSection::load]: it seeks to [sec_header.get_offset() +
    abbrev_offset], a [u64] addition that panics on overflow. *)
Definition abbrev_load (file : list Z) (sec_offset abbrev_offset : Z)
    (abb_rev : list DebugAbbRevRecord) : IoResult (list DebugAbbRevRecord) :=
  let offset := sec_offset + abbrev_offset in
  if modulus64 <=? offset then IoPanic
  else
    let r := seek file offset in
    '(abb_rev, _) ← abbrev_load_loop (S (length r)) abb_rev r;
    mret abb_rev.

Record Filenames := mkFilenames {
  fn_name : string; dir_entry : Z; last_modify : Z; fn_size : Z
}.

Record DebugLineHeader := mkDebugLineHeader {
  dl_len : Z; dl_version : Z; header_len : Z; min_inst_len : Z; max_ope_len : Z;
  is_stmt : Z; line_base : Z; line_range : Z; opcode_base : Z;
  standard_opcode_len : list Z; inc_dirs : list string; file_names : list Filenames
}.

(** The read loop of [get_null_term_str]: one byte at a time up to the
    NUL, which is consumed; the end of the source is [UnexpectedEof]. *)
Fixpoint null_term_bytes (r : ByteSource) (buf : list Z) : IoResult (list Z * ByteSource) :=
  match r with
  | [] => IoErr UnexpectedEof
  | c :: r' => if Z.eqb c 0 then IoOk (buf, r') else null_term_bytes r' (buf ++ [c])
  end.

(** [DebugLineSection::get_null_term_str]: invalid UTF-8 is an [Other]
    error. *)
Definition get_null_term_str (r : ByteSource) : IoResult (string * ByteSource) :=
  '(buf, r) ← null_term_bytes r [];
  if utf8_valid buf then mret (bytes_to_string buf, r) else IoErr Other.

(** [if let Ok(x) = Self::decode(reader)]: a decode error (the source
    ran out, so it is now empty) is skipped; a panic stays one. *)
Definition decode_if_ok (r : ByteSource) : IoResult (option Z * ByteSource) :=
  match decode r with
  | LebOk _ v r' => IoOk (Some v, r')
  | LebDecodeError => IoOk (None, [])
  | LebPanic => IoPanic
  end.

(** The [for_each] over [0..opcode_base - 1]. *)
Fixpoint opcode_len_loop (n : nat) (ops : list Z) (r : ByteSource)
    : IoResult (list Z * ByteSource) :=
  match n with
  | O => mret (ops, r)
  | S n' =>
      '(arg, r) ← decode_if_ok r;
      opcode_len_loop n' (match arg with Some v => ops ++ [v] | None => ops end) r
  end.

(** The include-directory [loop], up to the empty string. Every pass
    consumes at least the NUL. *)
Fixpoint inc_dirs_loop (fuel : nat) (dirs : list string) (r : ByteSource)
    : IoResult (list string * ByteSource) :=
  match fuel with
  | O => IoFuel
  | S fuel' =>
      '(s, r) ← get_null_term_str r;
      if String.eqb s EmptyString then mret (dirs, r)
      else inc_dirs_loop fuel' (dirs ++ [s]) r
  end.

(** The file-name [loop], up to the empty string; each of the three
    numbers keeps its initial 0 when its decode fails. *)
Fixpoint file_names_loop (fuel : nat) (files : list Filenames) (r : ByteSource)
    : IoResult (list Filenames * ByteSource) :=
  match fuel with
  | O => IoFuel
  | S fuel' =>
      '(s, r) ← get_null_term_str r;
      if String.eqb s EmptyString then mret (files, r)
      else
        '(entry, r) ← decode_if_ok r;
        '(modify, r) ← decode_if_ok r;
        '(size, r) ← decode_if_ok r;
        file_names_loop fuel'
          (files ++ [mkFilenames s (default 0 entry) (default 0 modify) (default 0 size)]) r
  end.

(** [i8::from_le_bytes] *)
Definition to_i8 (b : Z) : Z := if b <? 128 then b else b - 256.

(** [DebugLineSection::load_header]. The byte read under the comment
    "is stmt" is stored into [max_ope_len] again, so [is_stmt] keeps the
    0 of [DebugLineHeader::new]. [opcode_base - 1] is a [u8] subtraction,
    which panics when [opcode_base] is 0. *)
Definition load_header (r : ByteSource) : IoResult (DebugLineHeader * ByteSource) :=
  '(len, r) ← read_le 4 r;
  '(version, r) ← read_le 2 r;
  '(header_len, r) ← read_le 4 r;
  '(min_inst_len, r) ← read_le 1 r;
  '(max_ope_len, r) ← read_le 1 r;
  '(max_ope_len, r) ← read_le 1 r;
  '(line_base, r) ← read_le 1 r;
  '(line_range, r) ← read_le 1 r;
  '(opcode_base, r) ← read_le 1 r;
  if Z.eqb opcode_base 0 then IoPanic
  else
    '(ops, r) ← opcode_len_loop (Z.to_nat (opcode_base - 1)) [] r;
    '(dirs, r) ← inc_dirs_loop (S (length r)) [] r;
    '(files, r) ← file_names_loop (S (length r)) [] r;
    mret (mkDebugLineHeader len version header_len min_inst_len max_ope_len 0
            (to_i8 line_base) line_range opcode_base ops dirs files, r).

Record DebugLineSection := mkDebugLineSection {
  dls_offset : Z; cu_header : list DebugLineHeader
}.

(** [DebugLineSection::load]: it seeks to [self.offset + offset], a
    [u64] addition that panics on overflow. *)
Definition line_load (file : list Z) (line : DebugLineSection) (offset : Z)
    : IoResult DebugLineSection :=
  let pos := dls_offset line + offset in
  if modulus64 <=? pos then IoPanic
  else
    '(h, _) ← load_header (seek file pos);
    mret (mkDebugLineSection (dls_offset line) (cu_header line ++ [h])).

(** [die.get_at_info() == DwAtInfo::StmtList]: [to_dw_at] maps the code
    0x10, and no other, to [StmtList]. *)
Definition is_stmt_list (attr : Z) : bool := Z.eqb attr 0x10.

(** [Dwarf::search_debug_line] *)
Definition search_debug_line (header : list ElfSecHeader) : option ElfSecHeader :=
  List.find (fun s => String.eqb (sh_rname s) ".debug_line") header.

(** The [for stmt in stmt_list] loop of [load_debug_line]: the DIE's
    text is parsed with [parse::<u64>], whose failure panics. *)
Fixpoint stmt_loop (file : list Z) (line_offset : Z) (stmts : list DebugInfoEntry)
    (debug_line : list DebugLineSection) : IoResult (list DebugLineSection) :=
  match stmts with
  | [] => mret debug_line
  | stmt :: stmts' =>
      match from_str_radix 10 64 (die_data stmt) with
      | None => IoPanic
      | Some offset =>
          line ← line_load file (mkDebugLineSection line_offset []) offset;
          stmt_loop file line_offset stmts' (debug_line ++ [line])
      end
  end.

(** The [for cu_h in self.debug_info.get_header()] loop; a CU header is
    given by its DIE list. *)
Fixpoint cu_stmt_loop (file : list Z) (line_offset : Z) (cus : list (list DebugInfoEntry))
    (debug_line : list DebugLineSection) : IoResult (list DebugLineSection) :=
  match cus with
  | [] => mret debug_line
  | dies :: cus' =>
      debug_line ← stmt_loop file line_offset
                     (List.filter (fun die => is_stmt_list (die_attr die)) dies) debug_line;
      cu_stmt_loop file line_offset cus' debug_line
  end.

(** [Dwarf::load_debug_line] *)
Definition load_debug_line (file : list Z) (header : list ElfSecHeader)
    (cus : list (list DebugInfoEntry)) (debug_line : list DebugLineSection)
    : IoResult (list DebugLineSection) :=
  match search_debug_line header with
  | None => IoErr NotFound
  | Some line_h => cu_stmt_loop file (sh_offset line_h) cus debug_line
  end.

(* ------------------------------------------------------------------ *)
(** ** src/memory_map.rs and the entry address of [Debugger::load_elf] *)

Record MapInfo := mkMapInfo {
  start_address : string; end_address : string; permission : string
}.

(** [str::split(sep)]: the pieces between the separators, empty pieces
    included, so there is always at least one. *)
Fixpoint split_char_go (sep : ascii) (s cur : string) : list string :=
  match s with
  | EmptyString => [cur]
  | String c s' =>
      if Ascii.eqb c sep then cur :: split_char_go sep s' EmptyString
      else split_char_go sep s' (cur +:+ String c EmptyString)
  end.

Definition split_char (sep : ascii) (s : string) : list string :=
  split_char_go sep s EmptyString.

(** One pass of the [for l in content.lines()] loop of [MemoryMap::load]
    ([content.lines()] is the list of lines). [s_line[0]],
    [addr_range[1]] and [s_line[1]] out of bounds panic; an existing list
    is cloned, pushed onto and inserted back. *)
Definition maps_line (maps : gmap string (list MapInfo)) (line : string)
    : IoResult (gmap string (list MapInfo)) :=
  let s_line := split_whitespace line in
  let key := if (6 <=? length s_line)%nat then default EmptyString (s_line !! 5%nat)
             else "none"%string in
  let map_info := maps !! key in
  match s_line !! 0%nat with
  | None => IoPanic
  | Some s0 =>
      let addr_range := split_char "-"%char s0 in
      match addr_range !! 0%nat, addr_range !! 1%nat, s_line !! 1%nat with
      | Some a0, Some a1, Some perm =>
          let new_map_info := mkMapInfo a0 a1 perm in
          match map_info with
          | Some m => mret (<[key := m ++ [new_map_info]]> maps)
          | None => mret (<[key := [new_map_info]]> maps)
          end
      | _, _, _ => IoPanic
      end
  end.

(** [MemoryMap::load] over the lines of the maps file, starting from
    the current [self.maps]. *)
Fixpoint maps_load (maps : gmap string (list MapInfo)) (lines : list string)
    : IoResult (gmap string (list MapInfo)) :=
  match lines with
  | [] => mret maps
  | l :: lines' => maps' ← maps_line maps l; maps_load maps' lines'
  end.

(** The entry address of [Debugger::load_elf]: [map_info.get(&self.path)
    .expect(..)[0].start_address] parsed as hexadecimal [usize]; each
    failure panics. *)
Definition load_elf_entry (maps : gmap string (list MapInfo)) (path : string) : IoResult Z :=
  match maps !! path with
  | None => IoPanic
  | Some infos =>
      match infos !! 0%nat with
      | None => IoPanic
      | Some info =>
          match from_str_radix 16 64 (start_address info) with
          | None => IoPanic
          | Some entry => mret entry
          end
      end
  end.

(* ------------------------------------------------------------------ *)
(** ** Auxiliary definitions for the properties *)

(** The breakpoint table invariant: one entry per absolute address, and
    the entries a sublist of the appended ones. *)
Definition bl_inv (st : BreakpointList * list Breakpoint) : Prop :=
  NoDup (map bp_key st.1) /\ st.1 `sublist_of` st.2.

(** [!x] on [u64]. *)
Definition u64_not (x : Z) : Z := Z.lxor x (modulus64 - 1).

(** A tracee for concrete runs: all memory words and registers zero, one
    function symbol [main] at 0x1139 and one variable [g] at 0x4010. *)
Definition sample_debugger : Debugger :=
  mkDebugger 0x5555_5555_4000 [] (fun _ => 0) (fun _ => 0)
    (fun s => if String.eqb s "main" then Some 0x1139 else None)
    (fun s => if String.eqb s "g" then Some 0x4010 else None).

(** The encoding of 0 padded to 11 bytes. *)
Definition uleb_padded_zero : list Z := repeat 0x80 10 ++ [0x00].

(** The two section filters of [load_symtab] and [read_strtab]. *)
Definition is_symtab (s : ElfSecHeader) : bool :=
  ShType_eqb (to_shtype (sh_type s)) ShmTab.

Definition is_strtab (e_shstrndx : Z) (s : ElfSecHeader) : bool :=
  ShType_eqb (to_shtype (sh_type s)) StrTab && negb (Z.eqb (sh_no s) e_shstrndx).

(** A section header with only its type, index and name filled in. *)
Definition sec (no ty : Z) (name : string) : ElfSecHeader :=
  mkElfSecHeader 0 ty 0 0 (0x100 * no) 0x40 0 0 1 0x18 no name.

(** Two symbol tables and two string tables besides [.shstrtab]. *)
Definition two_tables : list ElfSecHeader :=
  [sec 0 0 ""; sec 1 2 ".symtab"; sec 2 3 ".strtab"; sec 3 2 ".symtab2";
   sec 4 3 ".strtab2"; sec 5 3 ".shstrtab"]%string.

(** One abbreviation: code 1, a [Data1] attribute, then the closing
    (0, 0) pair, no children. *)
Definition one_data1_abbrev : list DebugAbbRevRecord :=
  [mkDebugAbbRevRecord 1 0x34 0 [0x3E; 0] [0x0B; 0]].

(** A CU of length 9 holding one DIE (code 1, value 0x2A) and no closing
    null entry, followed by the next CU's length field. *)
Definition cu_without_null : ByteSource := [0x01; 0x2A; 0x0C; 0x00; 0x00; 0x00].

(** A breakpoint on [main] at base 0x1000. *)
Definition sample_entry : Breakpoint := mkBreakpoint "main" 0x90 (AdrFromRel 0x1000 0x139).

(** The lines of a listing; none for the empty table. *)
Definition listing_lines (l : BreakListing) : list (nat * string * Z) :=
  match l with NotEntried => [] | Listing ls => ls end.


(** The low byte mask of [breakpoint]. *)
Definition int3_mask : Z := 0xFFFF_FFFF_FFFF_FF00.

(** The standard ULEB128 encoding (the code has no encoder): seven bits
    per byte, low group first, the top bit set on every byte but the
    last. Ten bytes hold any [u64]. *)
Fixpoint uleb_encode_go (fuel : nat) (v : Z) : list Z :=
  match fuel with
  | O => []
  | S f => if v <? 128 then [v] else (v mod 128 + 128) :: uleb_encode_go f (v / 128)
  end.

Definition uleb_encode (v : Z) : list Z := uleb_encode_go 10 v.

(** The [n]-byte little-endian value at offset [off] of a file. *)
Definition le_at (f : list Z) (off n : nat) : Z := from_le_bytes (take n (drop off f)).

(** The program header [load_prog_header] builds from the 48 bytes at
    [off], [old] being the entry it overwrites. *)
Definition prog_at (f : list Z) (off : nat) (old : ElfProgHeader) : ElfProgHeader :=
  mkElfProgHeader (le_at f off 4) (le_at f (off + 4) 4) (le_at f (off + 8) 8)
    (le_at f (off + 16) 8) (le_at f (off + 24) 8) (p_filesz old)
    (le_at f (off + 32) 8) (le_at f (off + 40) 8).

(** The section header read from the 64 bytes at [off], as entry [no],
    with the name [name]. *)
Definition sec_at (f : list Z) (off no : nat) (name : string) : ElfSecHeader :=
  mkElfSecHeader (le_at f off 4) (le_at f (off + 4) 4) (le_at f (off + 8) 8)
    (le_at f (off + 16) 8) (le_at f (off + 24) 8) (le_at f (off + 32) 8)
    (le_at f (off + 40) 4) (le_at f (off + 44) 4) (le_at f (off + 48) 8)
    (le_at f (off + 56) 8) (Z.of_nat no) name.

(** A section header with its resolved name replaced. *)
Definition with_rname (s : ElfSecHeader) (name : string) : ElfSecHeader :=
  mkElfSecHeader (sh_name s) (sh_type s) (sh_flags s) (sh_addr s) (sh_offset s)
    (sh_size s) (sh_link s) (sh_info s) (sh_addralign s) (sh_entsize s) (sh_no s) name.

(** The symbol read from the 24 bytes at [off], with the name [name]. *)
Definition sym_at (f : list Z) (off : nat) (name : string) : SymTbl :=
  let info := le_at f (off + 4) 1 in
  mkSymTbl (le_at f off 4) info (le_at f (off + 5) 1) (le_at f (off + 6) 2)
    (le_at f (off + 8) 8) (le_at f (off + 16) 8) name (to_st_bind info) (to_st_type info).

(** [n] little-endian bytes of [v]. *)
Fixpoint le_bytes (n : nat) (v : Z) : list Z :=
  match n with
  | O => []
  | S n' => v mod 256 :: le_bytes n' (v / 256)
  end.

(** A small ELF file: the header, one program header entry (48 bytes as
    the loader reads it), four section headers (null, [.shstrtab],
    [.strtab], [.symtab]), the two string tables and two symbols (a null
    one and the global function [main] at 0x1139). *)
Definition sample_elf_file : list Z :=
  [0x7F; 0x45; 0x4C; 0x46; 2; 1; 1; 0] ++ repeat 0 8 ++
  le_bytes 2 2 ++ le_bytes 2 0x3E ++ le_bytes 4 1 ++ le_bytes 8 0x1139 ++
  le_bytes 8 64 ++ le_bytes 8 112 ++ le_bytes 4 0 ++
  le_bytes 2 64 ++ le_bytes 2 56 ++ le_bytes 2 1 ++ le_bytes 2 64 ++ le_bytes 2 4 ++
  le_bytes 2 1 ++
  (* program header *)
  le_bytes 4 1 ++ le_bytes 4 5 ++ le_bytes 8 0 ++ le_bytes 8 0x400000 ++
  le_bytes 8 0x400000 ++ le_bytes 8 0x1C9 ++ le_bytes 8 0x1C9 ++
  (* section headers *)
  repeat 0 64 ++
  le_bytes 4 1 ++ le_bytes 4 3 ++ le_bytes 8 0 ++ le_bytes 8 0 ++ le_bytes 8 368 ++
  le_bytes 8 27 ++ le_bytes 4 0 ++ le_bytes 4 0 ++ le_bytes 8 1 ++ le_bytes 8 0 ++
  le_bytes 4 11 ++ le_bytes 4 3 ++ le_bytes 8 0 ++ le_bytes 8 0 ++ le_bytes 8 395 ++
  le_bytes 8 6 ++ le_bytes 4 0 ++ le_bytes 4 0 ++ le_bytes 8 1 ++ le_bytes 8 0 ++
  le_bytes 4 19 ++ le_bytes 4 2 ++ le_bytes 8 0 ++ le_bytes 8 0 ++ le_bytes 8 401 ++
  le_bytes 8 48 ++ le_bytes 4 2 ++ le_bytes 4 1 ++ le_bytes 8 8 ++ le_bytes 8 24 ++
  (* .shstrtab: "\0.shstrtab\0.strtab\0.symtab\0" *)
  [0; 0x2E; 0x73; 0x68; 0x73; 0x74; 0x72; 0x74; 0x61; 0x62; 0;
   0x2E; 0x73; 0x74; 0x72; 0x74; 0x61; 0x62; 0;
   0x2E; 0x73; 0x79; 0x6D; 0x74; 0x61; 0x62; 0] ++
  (* .strtab: "\0main\0" *)
  [0; 0x6D; 0x61; 0x69; 0x6E; 0] ++
  (* .symtab *)
  repeat 0 24 ++
  le_bytes 4 1 ++ [0x12; 0] ++ le_bytes 2 1 ++ le_bytes 8 0x1139 ++ le_bytes 8 0x10.

(** The value of a successful load, [Elf64::new()] otherwise. *)
Definition io_value (r : IoResult (Elf64 * ByteSource)) : Elf64 :=
  match r with IoOk (e, _) => e | _ => elf_new end.

Definition io_value1 (r : IoResult Elf64) : Elf64 :=
  match r with IoOk e => e | _ => elf_new end.

(** What [line.load(path, offset)] in [load_debug_line] leaves for one
    DW_AT_stmt_list DIE, the .debug_line section being at [line_offset]. *)
Definition stmt_loaded (file : list Z) (line_offset : Z) (die : DebugInfoEntry)
    (line : DebugLineSection) : Prop :=
  exists offset h r,
    from_str_radix 10 64 (die_data die) = Some offset /\
    line_offset + offset < modulus64 /\
    load_header (seek file (line_offset + offset)) = IoOk (h, r) /\
    line = mkDebugLineSection line_offset [h].

(** A well-formed abbreviation record: a nonzero code, and attribute
    names and forms of the same length ending in the (0, 0) pair, which
    occurs nowhere before. *)
Definition abbrev_wf (a : DebugAbbRevRecord) : Prop :=
  ab_abbrev_no a <> 0 /\
  exists names forms, attr_name a = names ++ [0] /\ attr_form a = forms ++ [0] /\
    length names = length forms /\ Forall (fun p => p <> (0, 0)) (combine names forms).

(** A version-3 line-program header: unit length 0x30, header length
    0x1D, line base -5, line range 14, opcode base 2 with one standard
    opcode length, the include directory "/s" and the file "m.c". *)
Definition sample_line_header : list Z :=
  [0x30; 0; 0; 0; 3; 0; 0x1D; 0; 0; 0; 1; 1; 1; 0xFB; 14; 2; 0;
   0x2F; 0x73; 0; 0;
   0x6D; 0x2E; 0x63; 0; 1; 0; 0; 0].

(** The file name and the mapping a maps line describes: fields are
    separated by white space, the first is [start-end] and the second the
    permissions, the sixth (if any) the file name, else "none". *)
Definition line_entry (line : string) : option (string * MapInfo) :=
  match split_whitespace line with
  | w0 :: w1 :: rest =>
      match split_char "-"%char w0 with
      | a0 :: a1 :: _ =>
          Some (match rest with
                | _ :: _ :: _ :: k :: _ => k
                | _ => "none"%string
                end, mkMapInfo a0 a1 w1)
      | _ => None
      end
  | _ => None
  end.

(** Four lines of a maps file: two mappings of [/tmp/a.out], one of
    [[vvar]] and an anonymous one. *)
Definition sample_maps : list string :=
  ["555555554000-555555555000 r--p 00000000 08:01 1234 /tmp/a.out";
   "555555555000-555555556000 r-xp 00001000 08:01 1234 /tmp/a.out";
   "7ffff7fc1000-7ffff7fc5000 r--p 00000000 00:00 0 [vvar]";
   "7ffffffde000-7ffffffff000 rw-p 00000000 00:00 0"]%string.

(* ================================================================== *)
(** * Properties *)

(** Sample evaluations. *)
Example decode_spot_0 : decode [0x00] = LebOk 1 0 [].
Proof. reflexivity. Qed.
Example decode_spot_e5 : decode [0xE5; 0x8E; 0x26] = LebOk 3 624485 [].
Proof. reflexivity. Qed.
Example shell_d_x : shell_line sample_debugger "d x" = ShPanic.
Proof. reflexivity. Qed.
Example to_syscall_17 : to_syscall 17 = "pread".
Proof. reflexivity. Qed.
Example parse_small :
  parse 8 [] [] [0x00] [] = PDone 1 [] [].
Proof. reflexivity. Qed.

(* ------------------------------------------------------------------ *)
(** ** The breakpoint table *)

Section BreakpointTable.

Lemma find_key_none (bl : BreakpointList) (a : Address) :
  List.find (fun b => Z.eqb (adr_get (bp_addr b)) (adr_get a)) bl = None <->
  (forall b, b ∈ bl -> bp_key b <> adr_get a).
Proof.
  split.
  - intros E b Hb Hk. apply list_elem_of_In in Hb.
    pose proof (find_none _ _ E b Hb) as Hf. simpl in Hf.
    unfold bp_key in Hk. rewrite Hk, Z.eqb_refl in Hf. discriminate.
  - intros H. destruct (List.find _ bl) as [b|] eqn:E; [|done].
    apply find_some in E as [Hin Heq]. apply Z.eqb_eq in Heq.
    exfalso. apply (H b); [by apply list_elem_of_In|exact Heq].
Qed.

Lemma register_present (bl : BreakpointList) s a i :
  (exists b, b ∈ bl /\ bp_key b = adr_get a) -> register bl s a i = (false, bl).
Proof.
  intros (b & Hb & Hk). unfold register.
  destruct (List.find _ bl) eqn:E; [done|].
  exfalso. by apply (proj1 (find_key_none bl a) E b).
Qed.

Lemma register_absent (bl : BreakpointList) s a i :
  (forall b, b ∈ bl -> bp_key b <> adr_get a) ->
  register bl s a i = (true, bl ++ [mkBreakpoint s i a]).
Proof.
  intros H. unfold register. by rewrite (proj2 (find_key_none bl a) H).
Qed.

Lemma sublist_map_keys (l1 l2 : BreakpointList) :
  l1 `sublist_of` l2 -> map bp_key l1 `sublist_of` map bp_key l2.
Proof. induction 1; simpl; by constructor. Qed.

Lemma bl_delete_out (bl : BreakpointList) (index : nat) :
  (length bl <= index)%nat -> bl_delete bl index = (None, bl).
Proof.
  intros H. unfold bl_delete.
  assert ((length bl <=? index)%nat = true) as -> by (apply Nat.leb_le; lia).
  by rewrite orb_true_r.
Qed.

Lemma bl_delete_in (bl : BreakpointList) (index : nat) :
  (index < length bl)%nat ->
  exists b, bl !! index = Some b /\
            bl_delete bl index = (Some b, take index bl ++ drop (S index) bl).
Proof.
  intros H. destruct (lookup_lt_is_Some_2 bl index H) as [b Hb].
  exists b. split; [done|]. unfold bl_delete.
  assert ((length bl =? 0)%nat = false) as -> by (apply Nat.eqb_neq; lia).
  assert ((length bl <=? index)%nat = false) as -> by (apply Nat.leb_gt; lia).
  simpl. unfold BreakpointList in *. by rewrite Hb, delete_take_drop.
Qed.

Lemma bl_step_inv st op : bl_inv st -> bl_inv (bl_step st op).
Proof.
  destruct st as [bl log]. intros [Hnd Hsub]. unfold bl_inv in *. simpl in *.
  unfold BreakpointList in *.
  destruct op as [s a i | index]; simpl.
  - unfold register.
    destruct (List.find _ bl) eqn:E; simpl; [by split|].
    pose proof (proj1 (find_key_none bl a) E) as Hfresh.
    split.
    + rewrite map_app. apply NoDup_app. split; [done|]. split.
      * intros k Hk. apply list_elem_of_In, in_map_iff in Hk as (b & <- & Hb).
        apply list_elem_of_In in Hb. simpl.
        intros Hin. apply list_elem_of_singleton in Hin.
        by apply (Hfresh b).
      * apply NoDup_singleton.
    + by apply sublist_app.
  - unfold bl_delete.
    destruct ((length bl =? 0)%nat || (length bl <=? index)%nat);
      [simpl; by split|].
    case_match; simpl; [|by split].
    split.
    + eapply sublist_NoDup; [exact Hnd|].
      apply sublist_map_keys, sublist_delete.
    + etrans; [apply sublist_delete|exact Hsub].
Qed.

Lemma bl_run_inv ops : bl_inv (bl_run ops).
Proof.
  unfold bl_run.
  assert (forall st, bl_inv st -> bl_inv (fold_left bl_step ops st)) as H.
  { induction ops as [|op ops IH]; intros st Hst; simpl; [done|].
    apply IH, bl_step_inv, Hst. }
  apply H. split; simpl; [constructor|done].
Qed.

End BreakpointTable.

(** C1. For every sequence of table operations starting from the empty
    table, the table holds at most one entry per absolute address and is
    a sublist (order preserved) of the entries [register] appended, in
    the order they were appended. [register] returns false and leaves the
    table unchanged when an entry with the same absolute address exists,
    and otherwise appends and returns true. [delete index] returns [None]
    (table unchanged) for [index >= len], and otherwise returns the entry
    at [index] and leaves the others in their order. *)
Theorem breakpoint_list_invariant :
  (forall ops, let '(bl, log) := bl_run ops in
     NoDup (map bp_key bl) /\ bl `sublist_of` log) /\
  (forall (bl : BreakpointList) s a i,
     (exists b, b ∈ bl /\ bp_key b = adr_get a) -> register bl s a i = (false, bl)) /\
  (forall (bl : BreakpointList) s a i,
     (forall b, b ∈ bl -> bp_key b <> adr_get a) ->
     register bl s a i = (true, bl ++ [mkBreakpoint s i a])) /\
  (forall (bl : BreakpointList) index,
     (length bl <= index)%nat -> bl_delete bl index = (None, bl)) /\
  (forall (bl : BreakpointList) index,
     (index < length bl)%nat ->
     exists b, bl !! index = Some b /\
       bl_delete bl index = (Some b, take index bl ++ drop (S index) bl)).
Proof.
  split; [|split; [|split; [|split]]].
  - intros ops. pose proof (bl_run_inv ops) as H.
    destruct (bl_run ops) as [bl log]. exact H.
  - apply register_present.
  - apply register_absent.
  - apply bl_delete_out.
  - apply bl_delete_in.
Qed.

(* ------------------------------------------------------------------ *)
(** ** Installing and recovering a breakpoint *)

Lemma breakpoint_entry (d : Debugger) r sym :
  dbg_entry (breakpoint d r sym) = dbg_entry d.
Proof. reflexivity. Qed.

(** C2. Installing a breakpoint on the relative address [r] with load
    base [entry]: with [A = entry + r] and [W] the word at [A] before
    patching, the word at [A] afterwards is [(W & !0xFF) | 0xCC], and the
    table is the result of [register(sym, A, W)]: when no entry for [A]
    existed, [(sym, A, W)] is appended. *)
Theorem breakpoint_install (d : Debugger) (r : Z) (sym : string) :
  let A := adr_get (AdrFromRel (dbg_entry d) r) in
  let W := dbg_mem d A in
  let d' := breakpoint d r sym in
  dbg_mem d' A = Z.lor (Z.land W (u64_not 0xFF)) 0xCC /\
  dbg_breakpoint d' =
    snd (register (dbg_breakpoint d) sym (AdrFromRel (dbg_entry d) r) W) /\
  ((forall b, b ∈ dbg_breakpoint d -> bp_key b <> A) ->
   dbg_breakpoint d' =
     dbg_breakpoint d ++ [mkBreakpoint sym W (AdrFromRel (dbg_entry d) r)]).
Proof.
  intros A W d'. split; [|split].
  - subst d'. unfold breakpoint, write_mem, read_mem. simpl.
    fold A. rewrite Z.eqb_refl. fold W.
    rewrite (Z.land_comm W). reflexivity.
  - reflexivity.
  - intros Hfresh. subst d'. unfold breakpoint. simpl.
    rewrite register_absent; [reflexivity|exact Hfresh].
Qed.

Lemma wrap64_small (x : Z) : 0 <= x < modulus64 -> wrap64 x = x.
Proof. intros H. unfold wrap64. apply Z.mod_small, H. Qed.

Lemma to_sym_addr_roundtrip (e x : Z) :
  0 <= x < modulus64 -> wrap64 (e + wrap64 (x - e)) = x.
Proof.
  intros H. unfold wrap64. rewrite Zplus_mod_idemp_r.
  replace (e + (x - e)) with x by lia. apply Z.mod_small, H.
Qed.

(** C10. Recovering from a hit on [rip_bp] (an address in the table,
    every table address a usize value, the single step stopping with
    [Stopped]) succeeds and leaves the table exactly as it was: the
    re-installation registers the same absolute address, which
    [register] rejects. *)
Theorem recover_bp_table_unchanged (d : Debugger) (rip_bp : Address)
    (step_effect : Memory * Regs -> Memory * Regs) :
  Forall (fun b => 0 <= bp_key b < modulus64) (dbg_breakpoint d) ->
  bl_has_addr (dbg_breakpoint d) rip_bp = true ->
  exists d', recover_bp d rip_bp step_effect WSStopped = Some d' /\
             dbg_breakpoint d' = dbg_breakpoint d.
Proof.
  intros Hrange Hhas. unfold bl_has_addr in Hhas.
  unfold recover_bp.
  destruct (bl_search (dbg_breakpoint d) rip_bp) as [bp_info|] eqn:Hs;
    [|discriminate].
  unfold bl_search in Hs. apply find_some in Hs as [Hin Hk].
  apply Z.eqb_eq in Hk.
  destruct (step_effect _) as [m3 r3].
  eexists. split; [reflexivity|].
  unfold breakpoint. simpl.
  rewrite register_present; [reflexivity|]. exists bp_info. split.
  - by apply list_elem_of_In.
  - unfold bp_key. unfold to_sym_addr. simpl.
    rewrite to_sym_addr_roundtrip; [reflexivity|].
    exact (proj1 (List.Forall_forall _ _) Hrange bp_info Hin).
Qed.

(* ------------------------------------------------------------------ *)
(** ** ULEB128 *)

Section Uleb128.

Lemma lor_low_high (v z s : Z) :
  0 <= s -> 0 <= v < 2 ^ s -> 0 <= z ->
  Z.lor v (z * 2 ^ s) = v + z * 2 ^ s.
Proof.
  intros Hs Hv Hz.
  assert (Z.land v (z * 2 ^ s) = 0) as Hdis.
  { rewrite <- Z.shiftl_mul_pow2 by exact Hs.
    apply Z.bits_inj'. intros n Hn. rewrite Z.land_spec, Z.bits_0.
    destruct (Z.lt_ge_cases n s) as [Hlt|Hge].
    - rewrite Z.shiftl_spec_low by exact Hlt. apply andb_false_r.
    - rewrite <- (Z.mod_small v (2 ^ s)) by exact Hv.
      rewrite Z.mod_pow2_bits_high by lia. reflexivity. }
  rewrite <- Z.lxor_lor by exact Hdis.
  symmetry. apply Z.add_nocarry_lxor, Hdis.
Qed.

(** One step of the accumulation at shift [s <= 63], in [u64]. *)
Lemma lor_wrap_step (v y s : Z) :
  0 <= s <= 64 -> 0 <= v < 2 ^ s -> 0 <= y ->
  Z.lor v (wrap64 (y * 2 ^ s)) = wrap64 (v + y * 2 ^ s).
Proof.
  intros Hs Hv Hy. unfold wrap64, modulus64.
  assert (2 ^ 64 = 2 ^ (64 - s) * 2 ^ s) as Hsplit
    by (rewrite <- Z.pow_add_r by lia; f_equal; lia).
  assert (0 < 2 ^ s) as Hm by (apply Z.pow_pos_nonneg; lia).
  assert (0 < 2 ^ (64 - s)) as Hn by (apply Z.pow_pos_nonneg; lia).
  rewrite Hsplit, Z.mul_mod_distr_r by lia.
  rewrite lor_low_high by (try lia; apply Z.mod_pos_bound; lia).
  set (N := 2 ^ (64 - s)). set (M := 2 ^ s).
  pose proof (Z.div_mod y N ltac:(lia)) as Hdm.
  pose proof (Z.mod_pos_bound y N ltac:(lia)) as Hb.
  apply (Z.mod_unique _ _ (y / N)).
  - left. nia.
  - nia.
Qed.

Lemma land_7f_bound (b : Z) : 0 <= Z.land b 0x7F < 128.
Proof.
  change 0x7F with (Z.ones 7). rewrite Z.land_ones by lia.
  apply Z.mod_pos_bound. reflexivity.
Qed.

Lemma decode_loop_terminated (pre : list Z) (b : Z) (rest : ByteSource)
    (v size s : Z) :
  Forall (fun c => Z.land c 0x80 <> 0) pre ->
  Z.land b 0x80 = 0 ->
  0 <= s -> s + 7 * Z.of_nat (length pre) <= 63 ->
  0 <= v < 2 ^ s ->
  decode_loop (pre ++ b :: rest) v size s =
    LebOk (size + Z.of_nat (length pre) + 1)
          (wrap64 (v + uleb_acc (pre ++ [b]) s)) rest.
Proof.
  revert v size s.
  induction pre as [|c pre IH]; intros v size s Hcont Hb Hs Hlen Hv; cbn [app decode_loop].
  - unfold shl_u64. simpl in Hlen.
    assert ((s <? 64) = true) as -> by (apply Z.ltb_lt; lia).
    rewrite Hb. simpl. rewrite Z.shiftl_mul_pow2 by lia.
    pose proof (land_7f_bound b).
    rewrite (lor_wrap_step v (Z.land b 127) s); [|lia|exact Hv|lia]. f_equal; [lia|f_equal; ring].
  - inversion Hcont as [|? ? Hc Hcont']; subst.
    rewrite length_cons, Nat2Z.inj_succ in Hlen.
    unfold shl_u64.
    assert ((s <? 64) = true) as -> by (apply Z.ltb_lt; lia).
    assert (Z.eqb 0 (Z.land c 0x80) = false) as -> by (apply Z.eqb_neq; congruence).
    rewrite Z.shiftl_mul_pow2 by lia.
    pose proof (land_7f_bound c) as Hcb.
    assert (2 ^ (s + 7) = 2 ^ s * 128) as Hp
      by (rewrite Z.pow_add_r by lia; reflexivity).
    assert (2 ^ s <= 2 ^ 56) by (apply Z.pow_le_mono_r; lia).
    rewrite lor_wrap_step by lia.
    rewrite (wrap64_small (v + Z.land c 127 * 2 ^ s)).
    2:{ unfold modulus64. split; [nia|].
        assert (2 ^ 64 = 2 ^ 56 * 256) as -> by reflexivity. nia. }
    rewrite IH; try assumption; try lia.
    + f_equal; [rewrite length_cons, Nat2Z.inj_succ; lia|]. f_equal. simpl. ring.
    + split; nia.
Qed.

Lemma decode_loop_exhausted (pre : list Z) (v size s : Z) :
  Forall (fun c => Z.land c 0x80 <> 0) pre ->
  0 <= s -> s + 7 * Z.of_nat (length pre) <= 70 ->
  decode_loop pre v size s = LebDecodeError.
Proof.
  revert v size s.
  induction pre as [|c pre IH]; intros v size s Hcont Hs Hlen; cbn [decode_loop]; [reflexivity|].
  inversion Hcont as [|? ? Hc Hcont']; subst.
  rewrite length_cons, Nat2Z.inj_succ in Hlen.
  unfold shl_u64.
  assert ((s <? 64) = true) as -> by (apply Z.ltb_lt; lia).
  assert (Z.eqb 0 (Z.land c 0x80) = false) as -> by (apply Z.eqb_neq; congruence).
  apply IH; [assumption|lia|lia].
Qed.

End Uleb128.

(** C3 (counterexample). An eleven-byte encoding is not decoded: its
    last byte needs a shift of 70 bits on a [u64], which overflows,
    where the claim promises [(11, 0)]. *)
Lemma uleb128_decode_eleven_bytes :
  decode uleb_padded_zero = LebPanic /\
  decode uleb_padded_zero <> LebOk 11 (uleb_acc uleb_padded_zero 0) [].
Proof. split; [reflexivity|discriminate]. Qed.

(** C3 (amended). When the terminating byte (top bit clear) is among the
    first ten bytes, [decode] returns the number of bytes up to and
    including it and the accumulation of their low 7 bits shifted left
    by 7 bits per position, modulo 2^64, and leaves the rest of the
    source unread; when the source ends within ten bytes without a
    terminating byte, it fails with [DecodeError]. The spot vectors
    [00], [01], [7F], [E5 8E 26], [EA 93 21] decode to (1,0), (1,1),
    (1,127), (3,624485), (3,543210). *)
Theorem uleb128_decode_spec :
  (forall (pre : list Z) (b : Z) (rest : ByteSource),
     Forall (fun c => Z.land c 0x80 <> 0) pre ->
     Z.land b 0x80 = 0 ->
     (length pre < 10)%nat ->
     decode (pre ++ b :: rest) =
       LebOk (Z.of_nat (length pre) + 1) (wrap64 (uleb_acc (pre ++ [b]) 0)) rest) /\
  (forall (pre : list Z),
     Forall (fun c => Z.land c 0x80 <> 0) pre ->
     (length pre <= 10)%nat ->
     decode pre = LebDecodeError) /\
  decode [0x00] = LebOk 1 0 [] /\
  decode [0x01] = LebOk 1 1 [] /\
  decode [0x7F] = LebOk 1 127 [] /\
  decode [0xE5; 0x8E; 0x26] = LebOk 3 624485 [] /\
  decode [0xEA; 0x93; 0x21] = LebOk 3 543210 [].
Proof.
  split; [|split; [|repeat split; reflexivity]].
  - intros pre b rest Hcont Hb Hlen. unfold decode.
    rewrite decode_loop_terminated; try assumption; try (simpl; lia).
    rewrite !Z.add_0_l. reflexivity.
  - intros pre Hcont Hlen. unfold decode.
    apply decode_loop_exhausted; [assumption|lia|lia].
Qed.

Lemma uleb128_decode_spec_witness :
  decode ([0xE5; 0x8E] ++ 0x26 :: [0x01]) =
    LebOk 3 (wrap64 (uleb_acc [0xE5; 0x8E; 0x26] 0)) [0x01] /\
  decode [0x80; 0xFF] = LebDecodeError.
Proof.
  split.
  - apply (proj1 uleb128_decode_spec [0xE5; 0x8E] 0x26 [0x01]).
    + repeat constructor; discriminate.
    + reflexivity.
    + simpl; lia.
  - apply (proj1 (proj2 uleb128_decode_spec) [0x80; 0xFF]).
    + repeat constructor; discriminate.
    + simpl; lia.
Defined.

(* ------------------------------------------------------------------ *)
(** ** ELF symbol and string table selection *)

Section SectionSelection.
Context {A : Type}.

(** [filter(..).collect::<Vec<_>>().pop()] picks the last match. *)
Lemma last_filter_Some (p : A -> bool) (l : list A) (x : A) :
  last (List.filter p l) = Some x <->
  exists pre post, l = pre ++ x :: post /\ p x = true /\
                   Forall (fun y => p y = false) post.
Proof.
  split.
  - induction l as [|y l IH] using rev_ind; simpl; [discriminate|].
    rewrite List.filter_app. simpl. destruct (p y) eqn:Hy.
    + rewrite last_snoc. intros [= <-]. exists l, []. auto.
    + rewrite app_nil_r. intros H.
      destruct (IH H) as (pre & post & -> & Hx & Hpost).
      exists pre, (post ++ [y]). split; [by rewrite <- app_assoc|].
      split; [done|]. apply Forall_app. split; [done|]. by constructor.
  - intros (pre & post & -> & Hx & Hpost).
    rewrite List.filter_app. simpl. rewrite Hx.
    assert (List.filter p post = []) as ->.
    { induction Hpost as [|y post Hy _ IH]; simpl; [done|]. by rewrite Hy. }
    apply last_snoc.
Qed.

End SectionSelection.

(** C4 (counterexample). With two [SymTab] sections and two string
    tables other than [e_shstrndx], [load_symtab] reads the later ones,
    not the first. *)
Lemma load_symtab_two_tables :
  load_symtab_sections 5 two_tables =
    Some (sec 4 3 ".strtab2", sec 3 2 ".symtab2") /\
  load_symtab_sections 5 two_tables <>
    Some (sec 2 3 ".strtab", sec 1 2 ".symtab").
Proof. split; [reflexivity|discriminate]. Qed.

(** C4 (amended). [load_symtab] succeeds exactly when a string table
    other than [e_shstrndx] and a [SymTab] section exist; the string
    table used is the last [StrTab] section whose index is not
    [e_shstrndx], and the symbol table is the last section classified
    [SymTab] (no matching section follows the chosen one). *)
Theorem load_symtab_selects_last (e_shstrndx : Z) (hs : list ElfSecHeader)
    (strtab symtab : ElfSecHeader) :
  load_symtab_sections e_shstrndx hs = Some (strtab, symtab) <->
  (exists pre post, hs = pre ++ strtab :: post /\
     is_strtab e_shstrndx strtab = true /\
     Forall (fun y => is_strtab e_shstrndx y = false) post) /\
  (exists pre post, hs = pre ++ symtab :: post /\
     is_symtab symtab = true /\
     Forall (fun y => is_symtab y = false) post).
Proof.
  unfold load_symtab_sections, find_strtab, find_symtab.
  rewrite <- (last_filter_Some (is_strtab e_shstrndx)).
  rewrite <- (last_filter_Some is_symtab).
  unfold is_strtab, is_symtab.
  split.
  - destruct (last (List.filter _ hs)) as [st|] eqn:E1; [|discriminate].
    destruct (last (List.filter (fun s => ShType_eqb _ ShmTab) hs)) as [sy|] eqn:E2;
      [|discriminate].
    intros [= -> ->]. done.
  - intros [-> ->]. reflexivity.
Qed.

Lemma load_symtab_selects_last_witness :
  load_symtab_sections 5 two_tables =
    Some (sec 4 3 ".strtab2", sec 3 2 ".symtab2").
Proof.
  apply (proj2 (load_symtab_selects_last 5 two_tables _ _)). split.
  - exists (take 4 two_tables), [sec 5 3 ".shstrtab"]%string.
    split; [reflexivity|]. split; [reflexivity|]. repeat constructor.
  - exists (take 3 two_tables), [sec 4 3 ".strtab2"; sec 5 3 ".shstrtab"]%string.
    split; [reflexivity|]. split; [reflexivity|]. repeat constructor.
Defined.

(* ------------------------------------------------------------------ *)
(** ** The null-terminated string extractor *)

Lemma take_while_nonzero (t rest : list Z) :
  Forall (fun c => c <> 0) t ->
  (rest = [] \/ exists r', rest = 0 :: r') ->
  take_while (fun c => negb (Z.eqb c 0)) (t ++ rest) = t.
Proof.
  intros Ht Hrest. induction Ht as [|c t Hc _ IH]; simpl.
  - destruct Hrest as [-> | (r' & ->)]; reflexivity.
  - apply Z.eqb_neq in Hc. rewrite Hc. simpl. by rewrite IH.
Qed.

(** C9. The extractor never fails on the offset: for an offset at or
    past the end of the buffer it returns the empty string, and for any
    offset it returns the bytes from [offset] up to, excluding, the
    first NUL (or the end of the buffer), provided they are valid
    UTF-8. *)
Theorem nul_term_string_total (buf : list Z) (offset : nat) :
  ((length buf <= offset)%nat -> nul_term_string buf offset = Some ""%string) /\
  (forall t rest,
     drop offset buf = t ++ rest ->
     Forall (fun c => c <> 0) t ->
     (rest = [] \/ exists r', rest = 0 :: r') ->
     utf8_valid t = true ->
     nul_term_string buf offset = Some (bytes_to_string t)).
Proof.
  split.
  - intros H. unfold nul_term_string. by rewrite drop_ge.
  - intros t rest Hdrop Ht Hrest Hvalid. unfold nul_term_string.
    rewrite Hdrop, take_while_nonzero by assumption.
    by rewrite Hvalid.
Qed.

Lemma nul_term_string_total_witness :
  nul_term_string [0x2E; 0x74; 0x65; 0x78; 0x74; 0x00] 9 = Some ""%string /\
  nul_term_string [0x2E; 0x74; 0x65; 0x78; 0x74; 0x00; 0x41] 1 = Some "text"%string.
Proof.
  split.
  - apply (proj1 (nul_term_string_total _ 9)). simpl. lia.
  - apply (proj2 (nul_term_string_total _ 1) [0x74; 0x65; 0x78; 0x74] [0x00; 0x41]).
    + reflexivity.
    + repeat constructor; discriminate.
    + right. eexists. reflexivity.
    + reflexivity.
Defined.

(* ------------------------------------------------------------------ *)
(** ** The DIE loop of [DebugInfoSection::parse] *)

Section DieLoop.
Variables (len : Z) (abbrev : list DebugAbbRevRecord) (str_buf : list Z).

Lemma read_attrs_no (no : Z) (fas : list (Z * Z)) (r : ByteSource) (rs : Z)
    (dies : list DebugInfoEntry) rs' dies' r' :
  no <> 0 ->
  Forall (fun d => die_no d <> 0) dies ->
  read_attrs str_buf no fas r rs dies = Some (rs', dies', r') ->
  Forall (fun d => die_no d <> 0) dies'.
Proof.
  intros Hno. revert r rs dies.
  induction fas as [|[form attr] fas IH]; intros r rs dies Hd H; simpl in H.
  - by injection H as _ <- _.
  - destruct (read_form str_buf form r) as [[[data n] r1]|]; [|discriminate].
    apply IH in H; [done|]. apply Forall_app. split; [done|].
    by constructor.
Qed.

Lemma parse_loop_done_check fuel r rs dies rs' dies' rest :
  parse_loop fuel len abbrev str_buf r rs dies = PDone rs' dies' rest ->
  wrap32 (rs' + 7) = len.
Proof.
  revert r rs dies.
  induction fuel as [|fuel IH]; intros r rs dies H; cbn [parse_loop] in H;
    [discriminate|].
  destruct (decode r) as [size code r1| |]; try discriminate.
  destruct (Z.eqb len (wrap32 (rs + size + 7))) eqn:Hc.
  - injection H as <- _ _. symmetry. by apply Z.eqb_eq.
  - destruct (Z.eqb 0 code); [by apply IH in H|].
    destruct (abbrev !! Z.to_nat (code - 1)); [|discriminate].
    destruct (read_attrs _ _ _ _ _ _) as [[[rs2 d2] r2]|]; [|discriminate].
    by apply IH in H.
Qed.

Lemma parse_loop_dies_nonnull fuel r rs dies rs' dies' rest :
  Forall (fun d => die_no d <> 0) dies ->
  parse_loop fuel len abbrev str_buf r rs dies = PDone rs' dies' rest ->
  Forall (fun d => die_no d <> 0) dies'.
Proof.
  revert r rs dies.
  induction fuel as [|fuel IH]; intros r rs dies Hd H; cbn [parse_loop] in H;
    [discriminate|].
  destruct (decode r) as [size code r1| |]; try discriminate.
  destruct (Z.eqb len (wrap32 (rs + size + 7))).
  - by injection H as _ <- _.
  - destruct (Z.eqb 0 code) eqn:Hz; [by apply IH in H|].
    apply Z.eqb_neq in Hz.
    destruct (abbrev !! Z.to_nat (code - 1)); [|discriminate].
    destruct (read_attrs _ _ _ _ _ _) as [[[rs2 d2] r2]|] eqn:Ha; [|discriminate].
    apply IH in H; [done|]. eapply read_attrs_no; [|exact Hd|exact Ha]. lia.
Qed.

End DieLoop.

(** C5 (counterexample). After the single DIE the count of consumed
    bytes plus 7 equals the length 9, yet the loop goes on reading the
    next CU's bytes (and then panics on an unknown abbreviation code):
    it does not terminate when the count reaches [length + 7] inside or
    at the end of a DIE's attributes. *)
Lemma parse_misses_cu_end :
  read_attrs [] 1 (combine [0x0B; 0] [0x3E; 0]) [0x2A; 0x0C; 0x00; 0x00; 0x00] 1 []
    = Some (2, [mkDebugInfoEntry 1 0x3E 0x0B "42"; mkDebugInfoEntry 1 0 0 "value: 0"]%string,
            [0x0C; 0x00; 0x00; 0x00]) /\
  wrap32 (2 + 7) = 9 /\
  parse 9 one_data1_abbrev [] cu_without_null [] = PPanic.
Proof. split; [|split]; reflexivity. Qed.

(** C5 (amended). The exit test of the DIE loop is made right after each
    DIE's leading ULEB128 [abbrev_no] is read, on the running count
    [read_size] (0 right after the CU prologue): the loop exits normally
    only with [(read_size + 7) as u32 = len], and it exits at the first
    such test that holds. Otherwise an [abbrev_no] of 0 is a null entry:
    the loop goes on with nothing recorded, and every DIE record it adds
    carries a non-zero [abbrev_no]. *)
Theorem parse_loop_exit_and_null_entries (len : Z) (abbrev : list DebugAbbRevRecord)
    (str_buf : list Z) (fuel : nat) (r : ByteSource) (rs : Z)
    (dies : list DebugInfoEntry) :
  (forall rs' dies' rest,
     parse_loop fuel len abbrev str_buf r rs dies = PDone rs' dies' rest ->
     wrap32 (rs' + 7) = len) /\
  (forall size code r1,
     decode r = LebOk size code r1 ->
     wrap32 (rs + size + 7) = len ->
     parse_loop (S fuel) len abbrev str_buf r rs dies = PDone (rs + size) dies r1) /\
  (forall size r1,
     decode r = LebOk size 0 r1 ->
     wrap32 (rs + size + 7) <> len ->
     parse_loop (S fuel) len abbrev str_buf r rs dies =
       parse_loop fuel len abbrev str_buf r1 (rs + size) dies) /\
  (Forall (fun d => die_no d <> 0) dies ->
   forall rs' dies' rest,
     parse_loop fuel len abbrev str_buf r rs dies = PDone rs' dies' rest ->
     Forall (fun d => die_no d <> 0) dies').
Proof.
  split; [|split; [|split]].
  - intros rs' dies' rest. apply parse_loop_done_check.
  - intros size code r1 Hd Hc. cbn [parse_loop]. rewrite Hd.
    assert (Z.eqb len (wrap32 (rs + size + 7)) = true) as -> by (apply Z.eqb_eq; auto).
    reflexivity.
  - intros size r1 Hd Hc. cbn [parse_loop]. rewrite Hd.
    assert (Z.eqb len (wrap32 (rs + size + 7)) = false) as -> by (apply Z.eqb_neq; auto).
    reflexivity.
  - intros Hdies rs' dies' rest. apply parse_loop_dies_nonnull, Hdies.
Qed.

Lemma parse_loop_exit_and_null_entries_witness :
  wrap32 (3 + 7) = 10 /\
  parse_loop 4 8 one_data1_abbrev [] [0x00] 0 [] = PDone 1 [] [] /\
  parse_loop 4 10 one_data1_abbrev [] [0x00; 0x00] 0 [] =
    parse_loop 3 10 one_data1_abbrev [] [0x00] 1 [].
Proof.
  split; [|split].
  - apply (proj1 (parse_loop_exit_and_null_entries 10 one_data1_abbrev []
                    4 [0x01; 0x2A; 0x00] 0 []) 3
             [mkDebugInfoEntry 1 0x3E 0x0B "42"; mkDebugInfoEntry 1 0 0 "value: 0"]%string []).
    reflexivity.
  - apply (proj1 (proj2 (parse_loop_exit_and_null_entries 8 one_data1_abbrev []
                           3 [0x00] 0 [])) 1 0 []); reflexivity.
  - apply (proj1 (proj2 (proj2 (parse_loop_exit_and_null_entries 10 one_data1_abbrev []
                                  3 [0x00; 0x00] 0 [])))) .
    + reflexivity.
    + discriminate.
Defined.

(** C7. An attribute of form [FlagPresent] (0x19) consumes no bytes of
    .debug_info, and the value text the code stores is
    ["flag is presetn"], not the fixed token ["flag is present"]. *)
Theorem read_form_flag_present (str_buf : list Z) (r : ByteSource) :
  read_form str_buf 0x19 r = Some ("flag is presetn"%string, 0, r) /\
  "flag is presetn"%string <> "flag is present"%string.
Proof. split; [reflexivity|discriminate]. Qed.

(** A DIE with one [FlagPresent] attribute, as [parse] records it. *)
Lemma parse_flag_present_die :
  parse 9 [mkDebugAbbRevRecord 1 0x2E 0 [0x3F; 0] [0x19; 0]] [] [0x01; 0x00] [] =
    PDone 2 [mkDebugInfoEntry 1 0x3F 0x19 "flag is presetn";
             mkDebugInfoEntry 1 0 0 "value: 0"]%string [].
Proof. reflexivity. Qed.

(* ------------------------------------------------------------------ *)
(** ** Shell commands with malformed arguments *)

(** C6. [d x] (a non-numeric breakpoint index) panics in
    [sh_release_break] ([parse::<usize>().unwrap()]), ending the debugger,
    while the sibling handlers recover from their malformed arguments:
    [set regs] with a bad hex value or an unknown register and [set var]
    with a bad hex value print and return to the prompt. *)
Theorem shell_release_break_nonnumeric (d : Debugger) :
  shell_line d "d x" = ShPanic /\
  shell_line d "set regs rax zz" = ShContinue d /\
  shell_line d "set regs foo 0x10" = ShContinue d /\
  shell_line d "set var g zz" = ShContinue d.
Proof. repeat split; reflexivity. Qed.

(* ------------------------------------------------------------------ *)
(** ** The syscall name table *)

(** C8 (counterexample). For [SYS_pread64] the code prints ["pread"],
    not ["pread64"]. *)
Lemma to_syscall_pread64 :
  to_syscall SYS_pread64 = "pread"%string /\
  to_syscall SYS_pread64 <> syscall_lookup spec_syscall_table SYS_pread64.
Proof. split; [reflexivity|discriminate]. Qed.

(** C8 (amended). The printed name is the entry of the closed table for
    [orig_rax]: the spec's names, except ["pread"] for [pread64] (17)
    and ["pwrite"] for [pwrite64] (18); any other number gives
    ["unknown system call"]. *)
Theorem to_syscall_table (no : Z) :
  to_syscall no = syscall_lookup printed_syscall_table no.
Proof. reflexivity. Qed.

(** The printed table differs from the spec's only at 17 and 18. *)
Lemma printed_table_vs_spec (no : Z) :
  no <> SYS_pread64 -> no <> SYS_pwrite64 ->
  syscall_lookup printed_syscall_table no = syscall_lookup spec_syscall_table no.
Proof.
  intros H1 H2. unfold printed_syscall_table, spec_syscall_table.
  cbn [syscall_lookup].
  repeat match goal with
         | |- context [Z.eqb no ?k] =>
             destruct (Z.eqb_spec no k); [subst; try congruence; reflexivity|]
         end.
  reflexivity.
Qed.

(* ------------------------------------------------------------------ *)
(** ** Concrete runs of the table and breakpoint theorems *)

Lemma breakpoint_list_invariant_witness :
  register [sample_entry] "f" (AdrFromAbs 0x1139) 7 = (false, [sample_entry]) /\
  register [sample_entry] "g" (AdrFromAbs 0x2000) 7 =
    (true, [sample_entry; mkBreakpoint "g" 7 (AdrFromAbs 0x2000)]) /\
  bl_delete [sample_entry] 1 = (None, [sample_entry]) /\
  (exists b, [sample_entry] !! 0%nat = Some b /\
             bl_delete [sample_entry] 0 = (Some b, [])).
Proof.
  destruct breakpoint_list_invariant as (_ & Hpres & Habs & Hout & Hin).
  split; [|split; [|split]].
  - apply Hpres. exists sample_entry. split; [by constructor|reflexivity].
  - apply Habs. intros b Hb. apply list_elem_of_singleton in Hb. subst b.
    unfold bp_key. simpl. discriminate.
  - apply Hout. simpl. lia.
  - apply Hin. simpl. lia.
Defined.

Lemma breakpoint_install_witness :
  dbg_breakpoint (breakpoint sample_debugger 0x1139 "main") =
    [mkBreakpoint "main" 0 (AdrFromRel 0x5555_5555_4000 0x1139)].
Proof.
  apply (proj2 (proj2 (breakpoint_install sample_debugger 0x1139 "main"))).
  intros b Hb. inversion Hb.
Defined.

Lemma recover_bp_table_unchanged_witness :
  exists d',
    recover_bp (breakpoint sample_debugger 0x1139 "main")
      (AdrFromAbs 0x5555_5555_5139) (fun st => st) WSStopped = Some d' /\
    dbg_breakpoint d' = dbg_breakpoint (breakpoint sample_debugger 0x1139 "main").
Proof.
  apply recover_bp_table_unchanged.
  - constructor; [|constructor]. unfold bp_key. simpl.
    unfold wrap64, modulus64. split; vm_compute; congruence.
  - reflexivity.
Defined.

(* ================================================================== *)
(** * Further properties of the debugger *)

(* ------------------------------------------------------------------ *)
(** ** The breakpoint table: lookup after update *)

Section TableLookup.

Lemma find_app_none {A} (p : A -> bool) (l1 l2 : list A) :
  List.find p l1 = None -> List.find p (l1 ++ l2) = List.find p l2.
Proof.
  induction l1 as [|x l1 IH]; simpl; [done|].
  destruct (p x); [discriminate|exact IH].
Qed.

Lemma search_nodup (l : BreakpointList) (b : Breakpoint) :
  NoDup (map bp_key l) -> b ∈ l -> bl_search l (bp_addr b) = Some b.
Proof.
  induction l as [|x l IH]; intros Hnd Hb; [by apply elem_of_nil in Hb|].
  simpl in Hnd. apply NoDup_cons in Hnd as [Hx Hnd].
  unfold bl_search. simpl.
  apply elem_of_cons in Hb as [->|Hb].
  - by rewrite Z.eqb_refl.
  - destruct (Z.eqb_spec (adr_get (bp_addr x)) (adr_get (bp_addr b))) as [E|E].
    + exfalso. apply Hx. fold (bp_key x). rewrite (E : bp_key x = bp_key b).
      apply list_elem_of_fmap_2, Hb.
    + apply IH; done.
Qed.

Lemma register_has_key (bl : BreakpointList) s a i :
  exists b, b ∈ snd (register bl s a i) /\ bp_key b = adr_get a.
Proof.
  unfold register. destruct (List.find _ bl) as [b|] eqn:E; simpl.
  - apply find_some in E as [Hin Hk]. apply Z.eqb_eq in Hk.
    exists b. split; [by apply list_elem_of_In|exact Hk].
  - exists (mkBreakpoint s i a). split; [|reflexivity].
    apply elem_of_app. right. by apply list_elem_of_singleton.
Qed.

End TableLookup.

(** X1. After [register(sym, a, inst)], [search(a)] finds the entry that was
    already in the table for the absolute address of [a], or, when there
    was none, the new entry [(sym, inst, a)]; [has_addr(a)] holds in both
    cases. *)
Theorem register_then_search (bl : BreakpointList) sym a inst :
  bl_search (snd (register bl sym a inst)) a =
    Some (default (mkBreakpoint sym inst a) (bl_search bl a)) /\
  bl_has_addr (snd (register bl sym a inst)) a = true.
Proof.
  unfold bl_has_addr, bl_search, register.
  destruct (List.find _ bl) as [b|] eqn:E; simpl.
  - by rewrite E.
  - rewrite find_app_none by exact E. simpl. by rewrite Z.eqb_refl.
Qed.

(** X2. In every table reached from the empty one, [delete(index)] that
    returns an entry [b] leaves a table where [has_addr] of [b]'s address
    is false, and where [search] still finds each remaining entry at its
    own address. *)
Theorem delete_then_search (ops : list bl_op) (index : nat) (b : Breakpoint)
    (bl' : BreakpointList) :
  bl_delete (bl_run ops).1 index = (Some b, bl') ->
  bl_has_addr bl' (bp_addr b) = false /\
  (forall b', b' ∈ bl' -> bl_search bl' (bp_addr b') = Some b').
Proof.
  intros Hdel. pose proof (bl_run_inv ops) as [Hnd _].
  set (bl := (bl_run ops).1) in *.
  destruct (decide (index < length bl)%nat) as [Hlt|Hge].
  2:{ rewrite bl_delete_out in Hdel by lia. discriminate. }
  destruct (bl_delete_in bl index Hlt) as (b0 & Hb0 & Hd0).
  rewrite Hd0 in Hdel. injection Hdel as <- <-.
  rewrite <- delete_take_drop.
  assert (NoDup (map bp_key (b0 :: delete index bl))) as Hnd'.
  { unfold BreakpointList in *.
    rewrite <- (delete_Permutation bl index b0 Hb0). exact Hnd. }
  simpl in Hnd'. apply NoDup_cons in Hnd' as [Hnotin Hnd'].
  split.
  - unfold bl_has_addr, bl_search.
    rewrite (proj2 (find_key_none _ _)); [reflexivity|].
    intros b' Hb' Hk. apply Hnotin. replace (bp_key b0) with (bp_key b') by exact Hk.
    apply list_elem_of_fmap_2, Hb'.
  - intros b' Hb'. apply search_nodup; done.
Qed.

(* ------------------------------------------------------------------ *)
(** ** Installing, re-installing and releasing breakpoints *)

Section BreakpointPatch.

Lemma int3_patch_idem (w : Z) :
  Z.lor (Z.land int3_mask (Z.lor (Z.land int3_mask w) 0xCC)) 0xCC =
  Z.lor (Z.land int3_mask w) 0xCC.
Proof.
  rewrite Z.land_lor_distr_r, Z.land_assoc, Z.land_diag.
  change (Z.land int3_mask 0xCC) with 0. by rewrite Z.lor_0_r.
Qed.

Lemma breakpoint_mem (d : Debugger) r sym x :
  dbg_mem (breakpoint d r sym) x =
    if Z.eqb x (adr_get (AdrFromRel (dbg_entry d) r))
    then Z.lor (Z.land int3_mask (dbg_mem d (adr_get (AdrFromRel (dbg_entry d) r)))) 0xCC
    else dbg_mem d x.
Proof. reflexivity. Qed.

Lemma rel_then_sym_addr (e v : Z) :
  0 <= v < modulus64 -> wrap64 (wrap64 (e + v) - e) = v.
Proof.
  intros H. unfold wrap64. rewrite Zminus_mod_idemp_l.
  replace (e + v - e) with v by lia. apply Z.mod_small, H.
Qed.

End BreakpointPatch.

(** X3. Setting a breakpoint on a fresh address and then releasing it by its
    index (the last one) returns true and gives back the table, every
    memory word and the registers as they were; releasing an index past
    the end of the table returns false and changes nothing. *)
Theorem breakpoint_release_roundtrip (d : Debugger) (r : Z) (sym : string) :
  (forall b, b ∈ dbg_breakpoint d -> bp_key b <> adr_get (AdrFromRel (dbg_entry d) r)) ->
  fst (release_break (breakpoint d r sym) (length (dbg_breakpoint d))) = true /\
  dbg_breakpoint (snd (release_break (breakpoint d r sym) (length (dbg_breakpoint d))))
    = dbg_breakpoint d /\
  (forall x, dbg_mem (snd (release_break (breakpoint d r sym) (length (dbg_breakpoint d)))) x
             = dbg_mem d x) /\
  dbg_regs (snd (release_break (breakpoint d r sym) (length (dbg_breakpoint d)))) = dbg_regs d /\
  (forall index, (length (dbg_breakpoint d) <= index)%nat -> release_break d index = (false, d)).
Proof.
  intros Hfresh.
  assert (dbg_breakpoint (breakpoint d r sym) =
          dbg_breakpoint d ++ [mkBreakpoint sym (dbg_mem d (adr_get (AdrFromRel (dbg_entry d) r)))
                                 (AdrFromRel (dbg_entry d) r)]) as Ht.
  { unfold breakpoint. simpl. rewrite register_absent by exact Hfresh. reflexivity. }
  assert (bl_delete (dbg_breakpoint (breakpoint d r sym)) (length (dbg_breakpoint d)) =
          (Some (mkBreakpoint sym (dbg_mem d (adr_get (AdrFromRel (dbg_entry d) r)))
                   (AdrFromRel (dbg_entry d) r)), dbg_breakpoint d)) as Hd.
  { rewrite Ht. unfold bl_delete. rewrite length_app. simpl.
    assert ((length (dbg_breakpoint d) + 1 =? 0)%nat = false) as -> by (apply Nat.eqb_neq; lia).
    assert ((length (dbg_breakpoint d) + 1 <=? length (dbg_breakpoint d))%nat = false) as ->
      by (apply Nat.leb_gt; lia).
    simpl. unfold BreakpointList.
    rewrite lookup_app_r, Nat.sub_diag by lia. simpl.
    by rewrite delete_middle, app_nil_r. }
  unfold release_break. rewrite Hd. simpl.
  split; [done|split; [done|split; [|split; [done|]]]].
  - intros x. unfold write_mem. simpl.
    destruct (Z.eqb_spec x (wrap64 (dbg_entry d + r))) as [->|]; done.
  - intros index Hi. rewrite bl_delete_out by exact Hi. by destruct d.
Qed.

(** X4. Setting a breakpoint a second time on the same address (under any
    symbol name) changes neither the table nor any memory word: the patch
    of the low byte is idempotent and [register] rejects the address. *)
Theorem breakpoint_twice (d : Debugger) (r : Z) (sym sym' : string) :
  dbg_breakpoint (breakpoint (breakpoint d r sym) r sym') =
    dbg_breakpoint (breakpoint d r sym) /\
  (forall x, dbg_mem (breakpoint (breakpoint d r sym) r sym') x =
             dbg_mem (breakpoint d r sym) x).
Proof.
  split.
  - unfold breakpoint at 1. simpl.
    rewrite register_present; [reflexivity|].
    apply (register_has_key (dbg_breakpoint d)).
  - intros x. rewrite breakpoint_mem. rewrite breakpoint_entry.
    destruct (Z.eqb_spec x (adr_get (AdrFromRel (dbg_entry d) r))) as [->|]; [|done].
    rewrite breakpoint_mem, Z.eqb_refl. unfold int3_mask. apply int3_patch_idem.
Qed.


(** X6. [b sym] on a function symbol with value [v] (a usize value) whose
    address is not yet in the table makes [bl] print the lines it printed
    before followed by one line numbered with the old table length,
    showing [sym] and [v]. *)
Theorem show_break_after_b (d : Debugger) (sym : string) (v : Z) :
  dbg_func_sym d sym = Some v -> 0 <= v < modulus64 ->
  (forall b, b ∈ dbg_breakpoint d -> bp_key b <> adr_get (AdrFromRel (dbg_entry d) v)) ->
  show_break (sh_breakpoint d sym) =
    Listing (listing_lines (show_break d) ++ [(length (dbg_breakpoint d), sym, v)]).
Proof.
  intros Hsym Hv Hfresh. unfold sh_breakpoint. rewrite Hsym.
  unfold show_break. unfold breakpoint. simpl.
  rewrite register_absent by exact Hfresh.
  destruct (dbg_breakpoint d) as [|b0 bl] eqn:E; simpl.
  - unfold to_sym_addr. simpl. rewrite rel_then_sym_addr by exact Hv. reflexivity.
  - f_equal. rewrite app_comm_cons, imap_app. f_equal.
    simpl. rewrite Nat.add_0_r. unfold to_sym_addr. simpl.
    rewrite rel_then_sym_addr by exact Hv. reflexivity.
Qed.

(* ------------------------------------------------------------------ *)
(** ** The shell commands *)



Section ShellInput.



End ShellInput.


(* ------------------------------------------------------------------ *)
(** ** Parsing numbers *)

Section ParseDigits.




End ParseDigits.




(* ------------------------------------------------------------------ *)
(** ** ULEB128: what [decode] returns *)

Section UlebRoundTrip.

Lemma lor_u64_range (a b : Z) :
  0 <= a < 2 ^ 64 -> 0 <= b < 2 ^ 64 -> 0 <= Z.lor a b < 2 ^ 64.
Proof.
  intros Ha Hb.
  assert (Z.lor a b mod 2 ^ 64 = Z.lor a b) as <-.
  { rewrite <- Z.land_ones by lia. rewrite Z.land_lor_distr_l, !Z.land_ones by lia.
    by rewrite !Z.mod_small. }
  apply Z.mod_pos_bound. lia.
Qed.

Lemma decode_loop_bounds (r : ByteSource) (v size s size' v' : Z) (rest : ByteSource) :
  decode_loop r v size s = LebOk size' v' rest ->
  s = 7 * size -> 0 <= size -> 0 <= v < 2 ^ 64 ->
  size < size' <= 10 /\ 0 <= v' < 2 ^ 64 /\ rest = drop (Z.to_nat (size' - size)) r.
Proof.
  revert v size s.
  induction r as [|b r IH]; intros v size s H Hs Hsz Hv; cbn [decode_loop] in H;
    [discriminate|].
  unfold shl_u64 in H. destruct (s <? 64) eqn:Elt; [|discriminate].
  apply Z.ltb_lt in Elt.
  assert (0 <= Z.lor v (wrap64 (Z.shiftl (Z.land b 127) s)) < 2 ^ 64) as Hr.
  { apply lor_u64_range; [exact Hv|]. apply Z.mod_pos_bound. reflexivity. }
  destruct (Z.eqb 0 (Z.land b 0x80)).
  - injection H as <- <- <-. split; [lia|split; [exact Hr|]].
    replace (size + 1 - size) with 1 by lia. reflexivity.
  - destruct (IH _ _ _ H ltac:(lia) ltac:(lia) Hr) as (H1 & H2 & H3).
    split; [lia|split; [exact H2|]]. rewrite H3.
    replace (Z.to_nat (size' - size)) with (S (Z.to_nat (size' - (size + 1)))) by lia.
    reflexivity.
Qed.

Lemma land_low7 (m : Z) : 0 <= m < 128 -> Z.land (m + 128) 0x7F = m.
Proof.
  intros Hm. change 0x7F with (Z.ones 7). rewrite Z.land_ones by lia.
  change (2 ^ 7) with 128.
  rewrite <- (Z.mod_small m 128) at 2 by exact Hm.
  replace (m + 128) with (m + 1 * 128) by ring. apply Z.mod_add. lia.
Qed.

Lemma land_top_set (m : Z) : 0 <= m < 128 -> Z.land (m + 128) 0x80 <> 0.
Proof.
  intros Hm H.
  assert (Z.testbit (Z.land (m + 128) 0x80) 7 = true) as Ht.
  { rewrite Z.land_spec. apply andb_true_iff. split; [|reflexivity].
    apply Z.testbit_true; [lia|]. change (2 ^ 7) with 128.
    replace ((m + 128) / 128) with 1; [reflexivity|].
    apply (Z.div_unique _ _ _ m); lia. }
  rewrite H in Ht. discriminate.
Qed.

Lemma land_top_clear (v : Z) : 0 <= v < 128 -> Z.land v 0x80 = 0.
Proof.
  intros Hv.
  assert (Z.land v (Z.ones 7) = v) as <-.
  { rewrite Z.land_ones by lia. apply Z.mod_small. exact Hv. }
  rewrite <- Z.land_assoc. change (Z.land (Z.ones 7) 0x80) with 0. apply Z.land_0_r.
Qed.

Lemma land_low7_small (v : Z) : 0 <= v < 128 -> Z.land v 0x7F = v.
Proof.
  intros Hv. change 0x7F with (Z.ones 7). rewrite Z.land_ones by lia.
  apply Z.mod_small. exact Hv.
Qed.

Lemma uleb_encode_go_S (f : nat) (v : Z) :
  uleb_encode_go (S f) v =
    if v <? 128 then [v] else (v mod 128 + 128) :: uleb_encode_go f (v / 128).
Proof. reflexivity. Qed.

Lemma decode_loop_encode (fuel : nat) (v acc size s : Z) (rest : ByteSource) :
  0 <= s <= 63 -> 0 <= acc < 2 ^ s -> 0 <= v < 128 ^ Z.of_nat (S fuel) ->
  v * 2 ^ s < 2 ^ 64 ->
  decode_loop (uleb_encode_go (S fuel) v ++ rest) acc size s =
    LebOk (size + Z.of_nat (length (uleb_encode_go (S fuel) v)))
          (wrap64 (acc + v * 2 ^ s)) rest.
Proof.
  revert v acc size s.
  induction fuel as [|f IH]; intros v acc size s Hs Hacc Hv Hvs;
  assert (0 < 2 ^ s) as Hp by (apply Z.pow_pos_nonneg; lia);
  rewrite uleb_encode_go_S; destruct (Z.ltb_spec v 128) as [Hlt|Hge].
  2:{ simpl in Hv. lia. }
  1,2: cbn [app decode_loop]; unfold shl_u64;
    assert ((s <? 64) = true) as -> by (apply Z.ltb_lt; lia);
    rewrite land_top_clear by lia; cbn [Z.eqb];
    rewrite land_low7_small by lia; rewrite Z.shiftl_mul_pow2 by lia;
    rewrite lor_wrap_step by lia; reflexivity.
  assert (0 <= v mod 128 < 128) as Hm by (apply Z.mod_pos_bound; lia).
  assert (128 * 2 ^ s <= v * 2 ^ s) by nia.
  assert (2 ^ (s + 7) = 2 ^ s * 128) as Hp7
    by (rewrite Z.pow_add_r by lia; reflexivity).
  assert (s + 7 <= 63).
  { destruct (Z.le_gt_cases (s + 7) 63) as [|Hbig]; [done|].
    assert (2 ^ 64 <= 2 ^ (s + 7)) by (apply Z.pow_le_mono_r; lia). lia. }
  cbn [app decode_loop]. unfold shl_u64.
  assert ((s <? 64) = true) as -> by (apply Z.ltb_lt; lia).
  assert (Z.eqb 0 (Z.land (v mod 128 + 128) 0x80) = false) as ->
    by (apply Z.eqb_neq; intros E; apply (land_top_set (v mod 128) Hm); lia).
  rewrite land_low7 by exact Hm. rewrite Z.shiftl_mul_pow2 by lia.
  rewrite lor_wrap_step by lia.
  assert (2 ^ s <= 2 ^ 56) by (apply Z.pow_le_mono_r; lia).
  rewrite (wrap64_small (acc + v mod 128 * 2 ^ s)).
  2:{ unfold modulus64. split; [nia|].
      assert (2 ^ 64 = 2 ^ 56 * 256) as -> by reflexivity. nia. }
  pose proof (Z.div_mod v 128 ltac:(lia)) as Hdm.
  rewrite IH.
  - cbn [length]. f_equal; [lia|]. f_equal. rewrite Hp7. nia.
  - lia.
  - rewrite Hp7. nia.
  - split; [apply Z.div_pos; lia|].
    rewrite Nat2Z.inj_succ, Z.pow_succ_r in Hv by lia.
    apply Z.div_lt_upper_bound; lia.
  - rewrite Hp7. nia.
Qed.

Lemma uleb_encode_length (v : Z) : (1 <= length (uleb_encode v) <= 10)%nat.
Proof.
  unfold uleb_encode.
  assert (forall f w, (1 <= length (uleb_encode_go (S f) w) <= S f)%nat) as H.
  { induction f as [|f IH]; intros w; cbn [uleb_encode_go];
      destruct (w <? 128); cbn [length]; try lia.
    specialize (IH (w / 128)). cbn [uleb_encode_go] in IH. lia. }
  apply H.
Qed.

End UlebRoundTrip.

(** X13. Whatever [decode] returns on success is consistent: it read between
    1 and 10 bytes, the value is a [u64], and the rest of the source is
    the input without the bytes read. *)
Theorem decode_result_bounds (r : ByteSource) (size val : Z) (rest : ByteSource) :
  decode r = LebOk size val rest ->
  1 <= size <= 10 /\ 0 <= val < 2 ^ 64 /\ rest = drop (Z.to_nat size) r.
Proof.
  intros H. unfold decode in H.
  destruct (decode_loop_bounds r 0 0 0 size val rest H) as (H1 & H2 & H3);
    [lia|lia|lia|].
  split; [lia|split; [exact H2|]]. rewrite H3. f_equal. lia.
Qed.

(** X14. [decode] inverts the ULEB128 encoding of every [u64] value [v]: on
    the encoding followed by any further bytes it returns the number of
    encoding bytes (1 to 10) and [v], and leaves exactly the further
    bytes unread. *)
Theorem decode_encode_roundtrip (v : Z) (rest : ByteSource) :
  0 <= v < 2 ^ 64 ->
  decode (uleb_encode v ++ rest) = LebOk (Z.of_nat (length (uleb_encode v))) v rest /\
  (1 <= length (uleb_encode v) <= 10)%nat.
Proof.
  intros Hv. split; [|apply uleb_encode_length].
  unfold decode, uleb_encode. rewrite decode_loop_encode.
  - f_equal. rewrite Z.mul_1_r, Z.add_0_l. apply wrap64_small. exact Hv.
  - lia.
  - simpl. lia.
  - split; [lia|]. change (128 ^ Z.of_nat 10) with (2 ^ 70).
    assert (2 ^ 64 < 2 ^ 70) by reflexivity. lia.
  - simpl. lia.
Qed.

(* ------------------------------------------------------------------ *)
(** ** Concrete runs of the debugger and shell properties *)

Lemma delete_then_search_witness :
  bl_delete (bl_run [OpRegister "main" (AdrFromAbs 0x10) 0x90;
                     OpRegister "f" (AdrFromAbs 0x20) 0x91]).1 0 =
    (Some (mkBreakpoint "main" 0x90 (AdrFromAbs 0x10)),
     [mkBreakpoint "f" 0x91 (AdrFromAbs 0x20)]) /\
  bl_has_addr [mkBreakpoint "f" 0x91 (AdrFromAbs 0x20)] (AdrFromAbs 0x10) = false.
Proof.
  assert (bl_delete (bl_run [OpRegister "main" (AdrFromAbs 0x10) 0x90;
                             OpRegister "f" (AdrFromAbs 0x20) 0x91]).1 0 =
    (Some (mkBreakpoint "main" 0x90 (AdrFromAbs 0x10)),
     [mkBreakpoint "f" 0x91 (AdrFromAbs 0x20)])) as H by reflexivity.
  split; [exact H|]. exact (proj1 (delete_then_search _ _ _ _ H)).
Defined.

Lemma breakpoint_release_roundtrip_witness :
  fst (release_break (breakpoint sample_debugger 0x1139 "main") 0) = true /\
  dbg_breakpoint (snd (release_break (breakpoint sample_debugger 0x1139 "main") 0)) = [].
Proof.
  assert (forall b, b ∈ dbg_breakpoint sample_debugger ->
            bp_key b <> adr_get (AdrFromRel (dbg_entry sample_debugger) 0x1139)) as H.
  { intros b Hb. inversion Hb. }
  destruct (breakpoint_release_roundtrip sample_debugger 0x1139 "main" H)
    as (H1 & H2 & _).
  split; [exact H1|exact H2].
Defined.


Lemma show_break_after_b_witness :
  show_break (sh_breakpoint sample_debugger "main") = Listing [(0%nat, "main"%string, 0x1139)].
Proof.
  rewrite (show_break_after_b sample_debugger "main" 0x1139).
  - reflexivity.
  - reflexivity.
  - unfold modulus64. lia.
  - intros b Hb. inversion Hb.
Defined.






Lemma decode_result_bounds_witness :
  decode [0xE5; 0x8E; 0x26; 0x07] = LebOk 3 624485 [0x07] /\
  1 <= 3 <= 10 /\ 0 <= 624485 < 2 ^ 64 /\ [0x07] = drop (Z.to_nat 3) [0xE5; 0x8E; 0x26; 0x07].
Proof.
  split; [reflexivity|].
  apply (decode_result_bounds [0xE5; 0x8E; 0x26; 0x07] 3 624485 [0x07]). reflexivity.
Defined.

Lemma decode_encode_roundtrip_witness :
  decode (uleb_encode 624485 ++ [0x07]) = LebOk 3 624485 [0x07].
Proof.
  exact (proj1 (decode_encode_roundtrip 624485 [0x07] ltac:(lia))).
Defined.

(* ------------------------------------------------------------------ *)
(** ** The ELF loaders *)

Lemma read_exact_io_drop (n k : nat) (f : list Z) :
  (0 < n)%nat ->
  read_exact_io n (drop k f) =
  if (k + n <=? length f)%nat then IoOk (take n (drop k f), drop (k + n) f)
  else IoErr UnexpectedEof.
Proof.
  intros Hn. unfold read_exact_io, read_exact. rewrite length_drop.
  destruct (Nat.leb_spec n (length f - k)), (Nat.leb_spec (k + n) (length f));
    try lia; [|reflexivity]. rewrite drop_drop. reflexivity.
Qed.

Lemma read_le_drop (n k : nat) (f : list Z) :
  (0 < n)%nat ->
  read_le n (drop k f) =
  if (k + n <=? length f)%nat then IoOk (le_at f k n, drop (k + n) f)
  else IoErr UnexpectedEof.
Proof.
  intros Hn. unfold read_le. rewrite read_exact_io_drop by exact Hn.
  destruct (k + n <=? length f)%nat; reflexivity.
Qed.

Lemma le_at_ext (f : list Z) (a b n : nat) : a = b -> le_at f a n = le_at f b n.
Proof. intros ->. reflexivity. Qed.

(** A read that succeeds. *)
Ltac io_ok :=
  first [rewrite read_le_drop by lia | rewrite read_exact_io_drop by lia];
  rewrite (proj2 (Nat.leb_le _ _)) by lia; cbn [mbind io_bind].

(** A read in a goal [run = IoOk _ -> P]: its failure contradicts the
    premise. *)
Ltac io_post :=
  first [rewrite read_le_drop by lia | rewrite read_exact_io_drop by lia];
  match goal with
  | |- context [Nat.leb ?a ?b] =>
      destruct (Nat.leb_spec a b);
      [cbn [mbind io_bind] | let Hbad := fresh in intros Hbad; discriminate Hbad]
  end.

(** A read in a goal [run = IoErr UnexpectedEof]: its failure closes it. *)
Ltac io_eof :=
  first [rewrite read_le_drop by lia | rewrite read_exact_io_drop by lia];
  match goal with
  | |- context [Nat.leb ?a ?b] =>
      destruct (Nat.leb_spec a b); [cbn [mbind io_bind] | reflexivity]
  end.

(** X15. [load_elf_header] reads the 64 bytes of the header: it fails with
    [UnexpectedEof] on a shorter file; otherwise it consumes exactly 64
    bytes, takes each field at its ELF64 offset (e_entry 24, e_phoff 32,
    e_shoff 40, e_phnum 56, e_shnum 60, e_shstrndx 62), keeps the previous
    [e_type], and sizes the two header tables to e_phnum and e_shnum. *)
Theorem load_elf_header_layout (e : Elf64) (f : list Z) :
  ((length f < 64)%nat -> load_elf_header e f = IoErr UnexpectedEof) /\
  ((64 <= length f)%nat ->
   exists e', load_elf_header e f = IoOk (e', drop 64 f) /\
     e_ident (elf_header e') = take 16 f /\
     e_type (elf_header e') = e_type (elf_header e) /\
     e_entry (elf_header e') = le_at f 24 8 /\
     e_phoff (elf_header e') = le_at f 32 8 /\
     e_shoff (elf_header e') = le_at f 40 8 /\
     e_phnum (elf_header e') = le_at f 56 2 /\
     e_shnum (elf_header e') = le_at f 60 2 /\
     e_shstrndx (elf_header e') = le_at f 62 2 /\
     length (prog_header e') = Z.to_nat (le_at f 56 2) /\
     length (sec_header e') = Z.to_nat (le_at f 60 2) /\
     sym_tbl e' = sym_tbl e).
Proof.
  change (load_elf_header e f) with (load_elf_header e (drop 0 f)).
  unfold load_elf_header. split; intros Hf.
  - repeat io_eof. exfalso. simpl in *. lia.
  - repeat io_ok. cbn [mret io_ret]. eexists. split; [reflexivity|].
    simpl. rewrite !length_resize. repeat split.
Qed.

Lemma load_prog_loop_ok (f : list Z) :
  forall cnt i k ph, (i + cnt <= length ph)%nat -> (k + 48 * cnt <= length f)%nat ->
  exists ph', load_prog_loop cnt i ph (drop k f) = IoOk (ph', drop (k + 48 * cnt) f) /\
    length ph' = length ph /\
    (forall j, (i <= j < i + cnt)%nat ->
       ph' !! j = prog_at f (k + 48 * (j - i)) <$> ph !! j) /\
    (forall j, ~ (i <= j < i + cnt)%nat -> ph' !! j = ph !! j).
Proof.
  induction cnt as [|cnt IH]; intros i k ph Hi Hk.
  - exists ph. rewrite Nat.mul_0_r, Nat.add_0_r.
    split; [reflexivity|]. split; [reflexivity|]. split; [intros j Hj; lia|].
    intros j _. reflexivity.
  - cbn [load_prog_loop]. io_ok.
    destruct (lookup_lt_is_Some_2 ph i) as [old Hold]; [lia|]. rewrite Hold.
    do 6 io_ok.
    match goal with
    | |- context [load_prog_loop cnt (S i) ?ph1 (drop ?k1 f)] =>
        destruct (IH (S i) k1 ph1) as (ph' & Hrun & Hlen & Hin & Hout);
        [rewrite length_insert; lia | lia | rewrite Hrun]
    end.
    exists ph'. split; [do 3 f_equal; lia|].
    rewrite Hlen, length_insert. split; [reflexivity|]. split.
    + intros j Hj. destruct (decide (j = i)) as [->|Hne].
      * rewrite Hout by lia. rewrite list_lookup_insert_eq by lia. rewrite Hold.
        rewrite Nat.sub_diag, Nat.mul_0_r, Nat.add_0_r. simpl.
        unfold prog_at. f_equal. f_equal; apply le_at_ext; lia.
      * rewrite Hin by lia. rewrite list_lookup_insert_ne by lia.
        f_equal. f_equal. lia.
    + intros j Hj. rewrite Hout by lia. apply list_lookup_insert_ne. lia.
Qed.

(** X16. When the header table has e_phnum entries and the file holds them,
    [load_prog_header] succeeds; it reads entry [j] at e_phoff + 48 * j
    (seven fields, 48 bytes per entry, where an ELF64 program header has
    56): the eight bytes at offset 32 of the entry become [p_memsz],
    those at 40 [p_align], and [p_filesz] keeps its previous value. *)
Theorem load_prog_header_layout (f : list Z) (e : Elf64) :
  length (prog_header e) = Z.to_nat (e_phnum (elf_header e)) ->
  (Z.to_nat (e_phoff (elf_header e)) + 48 * length (prog_header e) <= length f)%nat ->
  exists e', load_prog_header f e = IoOk e' /\
    elf_header e' = elf_header e /\ sec_header e' = sec_header e /\
    sym_tbl e' = sym_tbl e /\ length (prog_header e') = length (prog_header e) /\
    forall j old, prog_header e !! j = Some old ->
      prog_header e' !! j =
        Some (prog_at f (Z.to_nat (e_phoff (elf_header e)) + 48 * j) old).
Proof.
  intros Hlen Hfit. unfold load_prog_header, seek. rewrite <- Hlen.
  destruct (load_prog_loop_ok f (length (prog_header e)) 0
              (Z.to_nat (e_phoff (elf_header e))) (prog_header e))
    as (ph' & Hrun & Hl & Hin & _); [lia | exact Hfit |].
  rewrite Hrun. cbn [mbind io_bind mret io_ret].
  eexists. split; [reflexivity|]. simpl. repeat split; [exact Hl|].
  intros j old Hj. assert (j < length (prog_header e))%nat
    by (apply lookup_lt_is_Some_1; eauto).
  rewrite Hin by lia. rewrite Hj, Nat.sub_0_r. reflexivity.
Qed.

Lemma load_sec_loop_post (f : list Z) :
  forall cnt i k sh sh' r,
  load_sec_loop cnt i sh (drop k f) = IoOk (sh', r) ->
  length sh' = length sh /\
  (forall j, (i <= j < i + cnt)%nat -> exists old, sh !! j = Some old /\
     sh' !! j = Some (sec_at f (k + 64 * (j - i)) j (sh_rname old))) /\
  (forall j, ~ (i <= j < i + cnt)%nat -> sh' !! j = sh !! j).
Proof.
  induction cnt as [|cnt IH]; intros i k sh sh' r.
  - cbn [load_sec_loop mret io_ret]. intros H. injection H as <- _.
    split; [reflexivity|]. split; [intros j Hj; lia|]. intros j _. reflexivity.
  - cbn [load_sec_loop]. io_post.
    destruct (sh !! i) as [old|] eqn:Hold; [|intros Hbad; discriminate Hbad].
    do 9 io_post. intros Hrun. apply IH in Hrun as (Hlen & Hin & Hout).
    rewrite Hlen, length_insert. split; [reflexivity|]. split.
    + intros j Hj. destruct (decide (j = i)) as [->|Hne].
      * exists old. split; [exact Hold|].
        rewrite Hout by lia. rewrite list_lookup_insert_eq
          by (apply lookup_lt_is_Some_1; eauto).
        rewrite Nat.sub_diag, Nat.mul_0_r, Nat.add_0_r.
        unfold sec_at. f_equal. f_equal; apply le_at_ext; lia.
      * destruct (Hin j) as (old' & Hold' & Hj'); [lia|].
        rewrite list_lookup_insert_ne in Hold' by lia.
        exists old'. split; [exact Hold'|]. rewrite Hj'.
        f_equal. f_equal. lia.
    + intros j Hj. rewrite Hout by lia. apply list_lookup_insert_ne. lia.
Qed.

Lemma sec_name_loop_post (buf : list Z) :
  forall cnt i sh sh',
  sec_name_loop cnt i buf sh = IoOk sh' ->
  length sh' = length sh /\
  (forall j, (i <= j < i + cnt)%nat -> exists s name, sh !! j = Some s /\
     nul_term_string buf (Z.to_nat (sh_name s)) = Some name /\
     sh' !! j = Some (with_rname s name)) /\
  (forall j, ~ (i <= j < i + cnt)%nat -> sh' !! j = sh !! j).
Proof.
  induction cnt as [|cnt IH]; intros i sh sh'.
  - cbn [sec_name_loop mret io_ret]. intros H. injection H as <-.
    split; [reflexivity|]. split; [intros j Hj; lia|]. intros j _. reflexivity.
  - cbn [sec_name_loop].
    destruct (sh !! i) as [s|] eqn:Hs; [|discriminate].
    destruct (nul_term_string buf (Z.to_nat (sh_name s))) as [name|] eqn:Hn;
      [|discriminate].
    intros H. apply IH in H as (Hlen & Hin & Hout).
    rewrite Hlen, length_insert. split; [reflexivity|]. split.
    + intros j Hj. destruct (decide (j = i)) as [->|Hne].
      * exists s, name. split; [exact Hs|]. split; [exact Hn|].
        rewrite Hout by lia. apply list_lookup_insert_eq.
        apply lookup_lt_is_Some_1; eauto.
      * destruct (Hin j) as (s' & name' & Hs' & Hn' & Hj'); [lia|].
        rewrite list_lookup_insert_ne in Hs' by lia. eauto.
    + intros j Hj. rewrite Hout by lia. apply list_lookup_insert_ne. lia.
Qed.

Lemma to_shtype_strtab (t : Z) : ShType_eqb (to_shtype t) StrTab = true -> t = 3.
Proof.
  unfold to_shtype.
  repeat match goal with
         | |- context [Z.eqb t ?c] => destruct (Z.eqb_spec t c); [try discriminate|]
         end; try discriminate. intros _. assumption.
Qed.

Lemma read_section_ok (f : list Z) (s : ElfSecHeader) (buf : list Z) :
  read_section f s = IoOk buf ->
  buf = take (Z.to_nat (sh_size s)) (drop (Z.to_nat (sh_offset s)) f).
Proof.
  unfold read_section, read_exact_io, read_exact, seek.
  destruct (_ <=? _)%nat; cbn [mbind io_bind mret io_ret]; intros H; [|discriminate].
  injection H as <-. reflexivity.
Qed.

(** X17. After [load_sec_header] succeeds, entry [j] of the section table
    (for j below e_shnum) is read from the 64 bytes at e_shoff + 64 * j,
    its [sh_no] is [j], and its name is the NUL-terminated string at its
    [sh_name] offset in the bytes of a string-table section whose [sh_no]
    is e_shstrndx; the table keeps its length and the rest of the ELF
    data is unchanged. *)
Theorem load_sec_header_layout (f : list Z) (e e' : Elf64) :
  load_sec_header f e = IoOk e' ->
  elf_header e' = elf_header e /\ prog_header e' = prog_header e /\
  sym_tbl e' = sym_tbl e /\ length (sec_header e') = length (sec_header e) /\
  exists t, t ∈ sec_header e' /\ sh_type t = 3 /\
    sh_no t = e_shstrndx (elf_header e) /\
    forall j, (j < Z.to_nat (e_shnum (elf_header e)))%nat ->
      exists name,
        nul_term_string (take (Z.to_nat (sh_size t)) (drop (Z.to_nat (sh_offset t)) f))
          (Z.to_nat (le_at f (Z.to_nat (e_shoff (elf_header e)) + 64 * j) 4)) = Some name /\
        sec_header e' !! j =
          Some (sec_at f (Z.to_nat (e_shoff (elf_header e)) + 64 * j) j name).
Proof.
  unfold load_sec_header, seek.
  destruct (load_sec_loop _ _ _ _) as [[sh1 r1]| | |] eqn:H1;
    cbn [mbind io_bind]; try discriminate.
  destruct (read_strtab_of_sec _ _ _) as [buf| | |] eqn:H2;
    cbn [mbind io_bind]; try discriminate.
  destruct (sec_name_loop _ _ _ _) as [sh2| | |] eqn:H3;
    cbn [mbind io_bind mret io_ret]; try discriminate.
  intros H. injection H as <-. cbn [elf_header prog_header sec_header sym_tbl].
  apply load_sec_loop_post in H1 as (L1 & In1 & Out1).
  apply sec_name_loop_post in H3 as (L3 & In3 & Out3).
  split; [reflexivity|]. split; [reflexivity|]. split; [reflexivity|].
  split; [rewrite L3; exact L1|].
  unfold read_strtab_of_sec in H2.
  destruct (find_strtab_of_sec _ _) as [t|] eqn:Hf; [|discriminate].
  apply read_section_ok in H2. unfold find_strtab_of_sec in Hf.
  apply last_filter_Some in Hf as (pre & post & Hsh & Hp & _).
  apply andb_prop in Hp as [Ht Hno].
  apply to_shtype_strtab in Ht. apply Z.eqb_eq in Hno.
  assert (Hm : sh1 !! length pre = Some t) by (rewrite Hsh; apply list_lookup_middle; reflexivity).
  assert (Ht' : exists t', sh2 !! length pre = Some t' /\ sh_type t' = sh_type t /\
            sh_no t' = sh_no t /\ sh_size t' = sh_size t /\ sh_offset t' = sh_offset t).
  { destruct (decide (0 <= length pre < 0 + Z.to_nat (e_shnum (elf_header e)))%nat)
      as [Hr|Hr].
    - destruct (In3 _ Hr) as (s & name & Hs & _ & Hs2).
      rewrite Hm in Hs. injection Hs as <-. exists (with_rname t name).
      split; [exact Hs2|]. repeat split.
    - exists t. rewrite Out3 by exact Hr. split; [exact Hm|]. repeat split. }
  destruct Ht' as (t' & Hm2 & Ety & Eno & Esz & Eoff).
  exists t'. split; [eapply list_elem_of_lookup_2; exact Hm2|].
  split; [congruence|]. split; [congruence|].
  intros j Hj. rewrite Esz, Eoff, <- H2.
  destruct (In3 j) as (s & name & Hs & Hn & Hs2); [lia|].
  destruct (In1 j) as (old & _ & Hs1); [lia|].
  rewrite Hs in Hs1. injection Hs1 as ->. rewrite Nat.sub_0_r in Hn, Hs2.
  exists name. split; [exact Hn|]. exact Hs2.
Qed.

Lemma load_sym_loop_post (f buf : list Z) :
  forall cnt i k tbl tbl' r,
  load_sym_loop cnt i buf tbl (drop k f) = IoOk (tbl', r) ->
  length tbl' = length tbl /\
  (forall j, (i <= j < i + cnt)%nat -> exists name,
     nul_term_string buf (Z.to_nat (le_at f (k + 24 * (j - i)) 4)) = Some name /\
     tbl' !! j = Some (sym_at f (k + 24 * (j - i)) name)) /\
  (forall j, ~ (i <= j < i + cnt)%nat -> tbl' !! j = tbl !! j).
Proof.
  induction cnt as [|cnt IH]; intros i k tbl tbl' r.
  - cbn [load_sym_loop mret io_ret]. intros H. injection H as <- _.
    split; [reflexivity|]. split; [intros j Hj; lia|]. intros j _. reflexivity.
  - cbn [load_sym_loop]. io_post.
    destruct (tbl !! i) as [old|] eqn:Hold; [|intros Hbad; discriminate Hbad].
    destruct (nul_term_string buf (Z.to_nat (le_at f k 4))) as [name|] eqn:Hn;
      [|intros Hbad; discriminate Hbad].
    do 5 io_post. intros Hrun. apply IH in Hrun as (Hlen & Hin & Hout).
    rewrite Hlen, length_insert. split; [reflexivity|]. split.
    + intros j Hj. destruct (decide (j = i)) as [->|Hne].
      * rewrite Nat.sub_diag, Nat.mul_0_r, Nat.add_0_r.
        exists name. split; [exact Hn|].
        rewrite Hout by lia. rewrite list_lookup_insert_eq
          by (apply lookup_lt_is_Some_1; eauto).
        unfold sym_at. f_equal. f_equal; apply le_at_ext; lia.
      * destruct (Hin j) as (name' & Hn' & Hj'); [lia|].
        replace (k + 24 * (j - i))%nat
          with (k + 4 + 1 + 1 + 2 + 8 + 8 + 24 * (j - S i))%nat by lia.
        exists name'. split; [exact Hn'|]. exact Hj'.
    + intros j Hj. rewrite Hout by lia. apply list_lookup_insert_ne. lia.
Qed.

(** X18. [load_symtab] panics when the symbol table's [sh_entsize] is 0
    (the division [sh_size / sh_entsize]). When it succeeds, the table
    holds [sh_size / sh_entsize] symbols, symbol [j] is read from the 24
    bytes at [sh_offset + 24 * j] whatever [sh_entsize] is, its name is
    the NUL-terminated string at [st_name] in the string table, and its
    type and binding are the low and high nibbles of [st_info]. *)
Theorem load_symtab_layout (f : list Z) (e : Elf64) :
  (forall buf t,
     read_strtab f (e_shstrndx (elf_header e)) (sec_header e) = IoOk buf ->
     find_symtab (sec_header e) = Some t -> sh_entsize t = 0 ->
     load_symtab f e = IoPanic) /\
  (forall e', load_symtab f e = IoOk e' ->
     elf_header e' = elf_header e /\ prog_header e' = prog_header e /\
     sec_header e' = sec_header e /\
     exists buf t,
       read_strtab f (e_shstrndx (elf_header e)) (sec_header e) = IoOk buf /\
       find_symtab (sec_header e) = Some t /\ sh_entsize t <> 0 /\
       length (sym_tbl e') = Z.to_nat (sh_size t / sh_entsize t) /\
       forall j, (j < length (sym_tbl e'))%nat -> exists name,
         nul_term_string buf (Z.to_nat (le_at f (Z.to_nat (sh_offset t) + 24 * j) 4))
           = Some name /\
         sym_tbl e' !! j = Some (sym_at f (Z.to_nat (sh_offset t) + 24 * j) name)).
Proof.
  unfold load_symtab. split.
  - intros buf t Hb Ht Hz. rewrite Hb. cbn [mbind io_bind]. rewrite Ht, Hz. reflexivity.
  - intros e'.
    destruct (read_strtab _ _ _) as [buf| | |] eqn:Hb; cbn [mbind io_bind];
      try discriminate.
    destruct (find_symtab _) as [t|] eqn:Ht; [|discriminate].
    destruct (Z.eqb_spec (sh_entsize t) 0) as [|Hz]; [discriminate|].
    unfold seek.
    destruct (load_sym_loop _ _ _ _ _) as [[tbl r]| | |] eqn:Hl;
      cbn [mbind io_bind mret io_ret]; try discriminate.
    intros H. injection H as <-. cbn [elf_header prog_header sec_header sym_tbl].
    apply load_sym_loop_post in Hl as (Hlen & Hin & _).
    rewrite length_resize in Hlen.
    split; [reflexivity|]. split; [reflexivity|]. split; [reflexivity|].
    exists buf, t. split; [reflexivity|]. split; [reflexivity|].
    split; [exact Hz|]. split; [exact Hlen|].
    intros j Hj. destruct (Hin j) as (name & Hn & Hj'); [lia|].
    rewrite Nat.sub_0_r in Hn, Hj'. eauto.
Qed.

Lemma load_elf_header_layout_witness :
  load_elf_header elf_new (take 40 sample_elf_file) = IoErr UnexpectedEof /\
  exists e', load_elf_header elf_new sample_elf_file = IoOk (e', drop 64 sample_elf_file) /\
    e_phnum (elf_header e') = 1 /\ e_shnum (elf_header e') = 4.
Proof.
  split.
  - apply (proj1 (load_elf_header_layout elf_new (take 40 sample_elf_file))).
    apply Nat.ltb_lt. vm_compute. reflexivity.
  - destruct (proj2 (load_elf_header_layout elf_new sample_elf_file)
                (proj1 (Nat.leb_le 64 (length sample_elf_file)) eq_refl))
      as (e' & H & _ & _ & _ & _ & _ & Hph & Hsh & _).
    exists e'. split; [exact H|]. rewrite Hph, Hsh. split; vm_compute; reflexivity.
Defined.

Lemma load_prog_header_layout_witness :
  exists e', load_prog_header sample_elf_file
               (io_value (load_elf_header elf_new sample_elf_file)) = IoOk e' /\
    exists p, prog_header e' !! 0%nat = Some p /\ p_filesz p = 0 /\ p_memsz p = 0x1C9.
Proof.
  destruct (load_prog_header_layout sample_elf_file
              (io_value (load_elf_header elf_new sample_elf_file)))
    as (e' & H & _ & _ & _ & _ & Hj);
    [vm_compute; reflexivity | apply Nat.leb_le; vm_compute; reflexivity |].
  exists e'. split; [exact H|]. eexists. split.
  - apply Hj. vm_compute. reflexivity.
  - split; vm_compute; reflexivity.
Defined.

Lemma load_sec_header_layout_witness :
  exists name, sec_header (io_value1 (load_sec_header sample_elf_file
      (io_value1 (load_prog_header sample_elf_file
         (io_value (load_elf_header elf_new sample_elf_file)))))) !! 3%nat =
    Some (sec_at sample_elf_file (112 + 64 * 3) 3 name).
Proof.
  destruct (load_sec_header_layout sample_elf_file
      (io_value1 (load_prog_header sample_elf_file
         (io_value (load_elf_header elf_new sample_elf_file))))
      (io_value1 (load_sec_header sample_elf_file
         (io_value1 (load_prog_header sample_elf_file
            (io_value (load_elf_header elf_new sample_elf_file)))))))
    as (_ & _ & _ & _ & t & _ & _ & _ & Hj); [vm_compute; reflexivity|].
  destruct (Hj 3%nat) as (name & _ & Hs); [vm_compute; lia|].
  exists name. exact Hs.
Defined.

Lemma load_symtab_layout_witness :
  sym_tbl (io_value1 (load_symtab sample_elf_file
    (io_value1 (load_sec_header sample_elf_file
      (io_value1 (load_prog_header sample_elf_file
         (io_value (load_elf_header elf_new sample_elf_file)))))))) !! 1%nat =
    Some (sym_at sample_elf_file 425 "main") /\
  load_symtab [] (mkElf64 (elf_header elf_new) []
     [mkElfSecHeader 0 2 0 0 0 0 0 0 0 0 0 ""; mkElfSecHeader 0 3 0 0 0 0 0 0 0 0 1 ""]
     []) = IoPanic.
Proof.
  split.
  - destruct (proj2 (load_symtab_layout sample_elf_file
        (io_value1 (load_sec_header sample_elf_file
          (io_value1 (load_prog_header sample_elf_file
             (io_value (load_elf_header elf_new sample_elf_file)))))))
        (io_value1 (load_symtab sample_elf_file
          (io_value1 (load_sec_header sample_elf_file
            (io_value1 (load_prog_header sample_elf_file
               (io_value (load_elf_header elf_new sample_elf_file)))))))))
      as (_ & _ & _ & buf & t & Hb & Ht & _ & Hlen & Hj); [vm_compute; reflexivity|].
    vm_compute in Ht. injection Ht as <-. vm_compute in Hb. injection Hb as <-.
    destruct (Hj 1%nat) as (name & Hn & Hs); [rewrite Hlen; vm_compute; lia|].
    vm_compute in Hn. injection Hn as <-. exact Hs.
  - apply (proj1 (load_symtab_layout [] (mkElf64 (elf_header elf_new) []
       [mkElfSecHeader 0 2 0 0 0 0 0 0 0 0 0 ""; mkElfSecHeader 0 3 0 0 0 0 0 0 0 0 1 ""]
       [])) []%list (mkElfSecHeader 0 2 0 0 0 0 0 0 0 0 0 ""));
      vm_compute; reflexivity.
Defined.

(* ------------------------------------------------------------------ *)
(** ** The DWARF loaders *)

Lemma null_term_bytes_app (bytes rest : list Z) :
  (forall b, b ∈ bytes -> b <> 0) ->
  forall buf, null_term_bytes (bytes ++ 0 :: rest) buf = IoOk (buf ++ bytes, rest).
Proof.
  induction bytes as [|c bytes IH]; intros Hnz buf; simpl.
  - rewrite app_nil_r. reflexivity.
  - destruct (Z.eqb_spec c 0) as [Hc|_].
    + exfalso. apply (Hnz c); [left|exact Hc].
    + rewrite IH by (intros b Hb; apply Hnz; right; exact Hb).
      rewrite <- app_assoc. reflexivity.
Qed.

Lemma null_term_bytes_eof (r : list Z) :
  (forall b, b ∈ r -> b <> 0) -> forall buf, null_term_bytes r buf = IoErr UnexpectedEof.
Proof.
  induction r as [|c r IH]; intros Hnz buf; simpl; [reflexivity|].
  destruct (Z.eqb_spec c 0) as [Hc|_].
  - exfalso. apply (Hnz c); [left|exact Hc].
  - apply IH. intros b Hb. apply Hnz. right. exact Hb.
Qed.

(** X19. [get_null_term_str] returns the bytes before the first NUL as a
    string and consumes the NUL, leaving the bytes after it; it fails
    with [Other] when those bytes are not UTF-8, and with
    [UnexpectedEof] when the source holds no NUL. *)
Theorem get_null_term_str_spec (bytes rest : list Z) :
  (forall b, b ∈ bytes -> b <> 0) ->
  get_null_term_str (bytes ++ 0 :: rest) =
    (if utf8_valid bytes then IoOk (bytes_to_string bytes, rest) else IoErr Other) /\
  get_null_term_str bytes = IoErr UnexpectedEof.
Proof.
  intros Hnz. unfold get_null_term_str. split.
  - rewrite null_term_bytes_app by exact Hnz. reflexivity.
  - rewrite null_term_bytes_eof by exact Hnz. reflexivity.
Qed.

Lemma opcode_len_loop_post :
  forall n ops r ops' r', opcode_len_loop n ops r = IoOk (ops', r') ->
  exists new, ops' = ops ++ new /\ (length new <= n)%nat.
Proof.
  induction n as [|n IH]; intros ops r ops' r'; cbn [opcode_len_loop].
  - cbn [mret io_ret]. intros H. injection H as <- _. exists []. split; [|simpl; lia].
    rewrite app_nil_r. reflexivity.
  - unfold decode_if_ok. destruct (decode r) as [size v r1| |];
      cbn [mbind io_bind]; [| |discriminate].
    + intros H. apply IH in H as (new & -> & Hl). exists (v :: new).
      rewrite <- app_assoc. split; [reflexivity|simpl; lia].
    + intros H. apply IH in H as (new & -> & Hl). exists new. split; [reflexivity|lia].
Qed.

Lemma inc_dirs_loop_post :
  forall fuel dirs r dirs' r', Forall (fun s => s <> EmptyString) dirs ->
  inc_dirs_loop fuel dirs r = IoOk (dirs', r') -> Forall (fun s => s <> EmptyString) dirs'.
Proof.
  induction fuel as [|fuel IH]; intros dirs r dirs' r' Hd; cbn [inc_dirs_loop];
    [discriminate|].
  destruct (get_null_term_str r) as [[s r1]| | |]; cbn [mbind io_bind]; try discriminate.
  destruct (String.eqb_spec s EmptyString) as [_|Hs].
  - cbn [mret io_ret]. intros H. injection H as <- _. exact Hd.
  - apply IH. apply Forall_app_2; [exact Hd|]. constructor; [exact Hs|constructor].
Qed.

Lemma file_names_loop_post :
  forall fuel files r files' r', Forall (fun fn => fn_name fn <> EmptyString) files ->
  file_names_loop fuel files r = IoOk (files', r') ->
  Forall (fun fn => fn_name fn <> EmptyString) files'.
Proof.
  induction fuel as [|fuel IH]; intros files r files' r' Hf; cbn [file_names_loop];
    [discriminate|].
  destruct (get_null_term_str r) as [[s r1]| | |]; cbn [mbind io_bind]; try discriminate.
  destruct (String.eqb_spec s EmptyString) as [_|Hs].
  - cbn [mret io_ret]. intros H. injection H as <- _. exact Hf.
  - destruct (decode_if_ok r1) as [[e1 r2]| | |]; cbn [mbind io_bind]; try discriminate.
    destruct (decode_if_ok r2) as [[e2 r3]| | |]; cbn [mbind io_bind]; try discriminate.
    destruct (decode_if_ok r3) as [[e3 r4]| | |]; cbn [mbind io_bind]; try discriminate.
    apply IH. apply Forall_app_2; [exact Hf|]. constructor; [exact Hs|constructor].
Qed.

(** X20. [load_header] fails with [UnexpectedEof] on fewer than 16 bytes
    and panics when the [opcode_base] byte (offset 15) is 0. When it
    succeeds, the fixed fields come from their offsets, the byte at
    offset 12 (is_stmt in the format) ends up in [max_ope_len] while
    [is_stmt] stays 0, [line_base] is read as a signed byte, at most
    [opcode_base - 1] opcode lengths are kept, and no include directory
    or file name is empty. *)
Theorem load_header_fields (r : ByteSource) :
  ((16 <= length r)%nat -> le_at r 15 1 = 0 -> load_header r = IoPanic) /\
  ((length r < 16)%nat -> load_header r = IoErr UnexpectedEof) /\
  (forall h r', load_header r = IoOk (h, r') ->
     dl_len h = le_at r 0 4 /\ dl_version h = le_at r 4 2 /\
     header_len h = le_at r 6 4 /\ min_inst_len h = le_at r 10 1 /\
     max_ope_len h = le_at r 12 1 /\ is_stmt h = 0 /\
     line_base h = to_i8 (le_at r 13 1) /\ line_range h = le_at r 14 1 /\
     opcode_base h = le_at r 15 1 /\ opcode_base h <> 0 /\
     (length (standard_opcode_len h) <= Z.to_nat (opcode_base h - 1))%nat /\
     Forall (fun s => s <> EmptyString) (inc_dirs h) /\
     Forall (fun fn => fn_name fn <> EmptyString) (file_names h)).
Proof.
  change (load_header r) with (load_header (drop 0 r)). unfold load_header.
  split; [|split].
  - intros Hr Hz. do 9 io_ok. cbn [Nat.add]. rewrite Hz. reflexivity.
  - intros Hr. repeat io_eof. exfalso. simpl in *. lia.
  - intros h r'. do 9 io_post. cbn [Nat.add].
    destruct (Z.eqb_spec (le_at r 15 1) 0) as [|Hz]; [discriminate|].
    destruct (opcode_len_loop _ _ _) as [[ops r1]| | |] eqn:Hops;
      cbn [mbind io_bind]; try discriminate.
    destruct (inc_dirs_loop _ _ _) as [[dirs r2]| | |] eqn:Hdirs;
      cbn [mbind io_bind]; try discriminate.
    destruct (file_names_loop _ _ _) as [[files r3]| | |] eqn:Hfiles;
      cbn [mbind io_bind mret io_ret]; try discriminate.
    intros Hrun. injection Hrun as <- _. cbn.
    apply opcode_len_loop_post in Hops as (new & -> & Hl).
    apply inc_dirs_loop_post in Hdirs; [|constructor].
    apply file_names_loop_post in Hfiles; [|constructor].
    repeat split; auto.
Qed.

Lemma digit_value_pretty (d : N) : (d < 10)%N ->
  digit_value 10 (pretty_N_char d) = Some (Z.of_N d).
Proof.
  intros Hd.
  assert (d = 0 \/ d = 1 \/ d = 2 \/ d = 3 \/ d = 4 \/ d = 5 \/ d = 6 \/ d = 7 \/
          d = 8 \/ d = 9)%N as Hc by lia.
  repeat destruct Hc as [->|Hc]; try reflexivity. subst. reflexivity.
Qed.

Lemma parse_digits_pretty (bits : Z) (x : N) :
  forall s, Z.of_N x < 2 ^ bits ->
  parse_digits 10 bits (pretty_N_go x s) 0 = parse_digits 10 bits s (Z.of_N x).
Proof.
  induction (N.lt_wf_0 x) as [x _ IH]. intros s Hx.
  destruct (decide (x = 0%N)) as [->|Hne]; [rewrite pretty_N_go_0; reflexivity|].
  rewrite pretty_N_go_step by lia.
  rewrite IH; [| apply N.div_lt; lia | rewrite N2Z.inj_div; simpl;
                 pose proof (Z.div_le_upper_bound (Z.of_N x) 10 (Z.of_N x)); lia].
  simpl. rewrite digit_value_pretty by (apply N.mod_lt; lia).
  replace (Z.of_N (x `div` 10) * 10 + Z.of_N (x `mod` 10)) with (Z.of_N x).
  - destruct (Z.ltb_spec (Z.of_N x) (2 ^ bits)); [reflexivity|lia].
  - rewrite N2Z.inj_div, N2Z.inj_mod. simpl.
    pose proof (Z.div_mod (Z.of_N x) 10). lia.
Qed.

Lemma from_le_bytes_bound (l : list Z) :
  Forall (fun b => 0 <= b < 256) l -> 0 <= from_le_bytes l < 256 ^ Z.of_nat (length l).
Proof.
  induction l as [|b l IH]; intros Hl; simpl; [lia|].
  inversion Hl as [|? ? Hb Hl']; subst. specialize (IH Hl').
  rewrite Nat2Z.inj_succ, Z.pow_succ_r by lia. nia.
Qed.

(** X21. [parse::<u64>] (radix 10) undoes [u64::to_string]: every [u64]
    comes back from its decimal text. In particular the text that
    [read_form] stores for a [DW_FORM_sec_offset] (0x17) value, which is
    what [load_debug_line] parses as a DW_AT_stmt_list offset, parses
    back to the 4-byte little-endian value read. *)
Theorem u64_decimal_roundtrip :
  (forall v, 0 <= v < 2 ^ 64 -> from_str_radix 10 64 (u_to_string v) = Some v) /\
  (forall str_buf r data n r', Forall (fun b => 0 <= b < 256) r ->
     read_form str_buf 0x17 r = Some (data, n, r') ->
     from_str_radix 10 64 data = Some (le_at r 0 4)).
Proof.
  assert (Hrt : forall v, 0 <= v < 2 ^ 64 -> from_str_radix 10 64 (u_to_string v) = Some v).
  { intros v Hv. unfold u_to_string, pretty, pretty_N.
    destruct (decide (Z.to_N v = 0%N)) as [H0|H0].
    - assert (v = 0) as -> by lia. reflexivity.
    - pose proof (parse_digits_pretty 64 (Z.to_N v) "" ltac:(lia)) as Hp.
      rewrite Z2N.id in Hp by lia. simpl in Hp.
      destruct (pretty_N_go (Z.to_N v) "") as [|c rest] eqn:E.
      + simpl in Hp. injection Hp as Hp. lia.
      + unfold from_str_radix. destruct (Ascii.eqb_spec c "+") as [->|Hc].
        * simpl in Hp. discriminate Hp.
        * exact Hp. }
  split; [exact Hrt|].
  intros str_buf r data n r' Hb. unfold read_form.
  replace (to_dw_form 0x17) with DwFormInfo.SecOffset by reflexivity.
  unfold read_fixed, read_exact.
  destruct (Nat.leb_spec 4 (length r)) as [Hl|Hl]; [|intros H; discriminate H].
  intros H. injection H as <- _ _.
  change (le_at r 0 4) with (from_le_bytes (take 4 r)). apply Hrt.
  pose proof (from_le_bytes_bound (take 4 r) (Forall_take _ _ _ Hb)) as Hbd.
  rewrite length_take, Nat.min_l in Hbd by exact Hl. simpl in Hbd. lia.
Qed.

Section DebugLine.

Variable file : list Z.
Variable line_offset : Z.

Lemma stmt_loop_post :
  forall stmts dl dl', stmt_loop file line_offset stmts dl = IoOk dl' ->
  exists new, dl' = dl ++ new /\ Forall2 (stmt_loaded file line_offset) stmts new.
Proof.
  induction stmts as [|stmt stmts IH]; intros dl dl'; cbn [stmt_loop].
  - cbn [mret io_ret]. intros H. injection H as <-. exists [].
    rewrite app_nil_r. split; [reflexivity|constructor].
  - destruct (from_str_radix 10 64 (die_data stmt)) as [offset|] eqn:Ho;
      [|discriminate].
    unfold line_load. cbn [dls_offset cu_header].
    destruct (Z.leb_spec modulus64 (line_offset + offset)) as [|Hlt]; [discriminate|].
    destruct (load_header _) as [[h r]| | |] eqn:Hh; cbn [mbind io_bind mret io_ret];
      try discriminate.
    intros H. apply IH in H as (new & -> & Hnew).
    exists (mkDebugLineSection line_offset [h] :: new).
    rewrite <- app_assoc. split; [reflexivity|].
    constructor; [|exact Hnew]. exists offset, h, r. auto.
Qed.

Lemma cu_stmt_loop_post :
  forall cus dl dl', cu_stmt_loop file line_offset cus dl = IoOk dl' ->
  exists new, dl' = dl ++ new /\
    Forall2 (stmt_loaded file line_offset)
      (List.concat (map (List.filter (fun die => is_stmt_list (die_attr die))) cus)) new.
Proof.
  induction cus as [|dies cus IH]; intros dl dl'; cbn [cu_stmt_loop].
  - cbn [mret io_ret]. intros H. injection H as <-. exists [].
    rewrite app_nil_r. split; [reflexivity|constructor].
  - destruct (stmt_loop _ _ _ _) as [dl1| | |] eqn:H1; cbn [mbind io_bind];
      try discriminate.
    intros H2. apply stmt_loop_post in H1 as (new1 & -> & Hn1).
    apply IH in H2 as (new2 & -> & Hn2).
    exists (new1 ++ new2). rewrite <- app_assoc. split; [reflexivity|].
    simpl. apply Forall2_app; assumption.
Qed.

End DebugLine.

(** X22. [load_debug_line] fails with [NotFound] without a [.debug_line]
    section. When it succeeds it has appended one line section per
    DW_AT_stmt_list DIE, in CU and DIE order; each carries the
    [.debug_line] offset and a single header, loaded at that offset plus
    the DIE's text parsed as a [u64] (the sum staying below 2^64). *)
Theorem load_debug_line_post (file : list Z) (header : list ElfSecHeader)
    (cus : list (list DebugInfoEntry)) (dl : list DebugLineSection) :
  (search_debug_line header = None -> load_debug_line file header cus dl = IoErr NotFound) /\
  (forall dl', load_debug_line file header cus dl = IoOk dl' ->
   exists line_h new, search_debug_line header = Some line_h /\ dl' = dl ++ new /\
     Forall2 (stmt_loaded file (sh_offset line_h))
       (List.concat (map (List.filter (fun die => is_stmt_list (die_attr die))) cus)) new).
Proof.
  unfold load_debug_line. split.
  - intros ->. reflexivity.
  - intros dl'. destruct (search_debug_line header) as [line_h|]; [|discriminate].
    intros H. apply cu_stmt_loop_post in H as (new & -> & Hn).
    exists line_h, new. auto.
Qed.

Lemma combine_snoc {A B} (l1 : list A) (l2 : list B) (a : A) (b : B) :
  length l1 = length l2 -> combine (l1 ++ [a]) (l2 ++ [b]) = combine l1 l2 ++ [(a, b)].
Proof.
  revert l2. induction l1 as [|x l1 IH]; intros [|y l2] Hl; simpl in *; try lia.
  - reflexivity.
  - rewrite IH by lia. reflexivity.
Qed.

Lemma abbrev_attr_loop_post :
  forall fuel names forms r names' forms' r',
  length names = length forms -> Forall (fun p => p <> (0, 0)) (combine names forms) ->
  abbrev_attr_loop fuel names forms r = IoOk (names', forms', r') ->
  exists n0 f0, names' = n0 ++ [0] /\ forms' = f0 ++ [0] /\
    length n0 = length f0 /\ Forall (fun p => p <> (0, 0)) (combine n0 f0).
Proof.
  induction fuel as [|fuel IH]; intros names forms r names' forms' r' Hl Hf;
    cbn [abbrev_attr_loop]; [discriminate|].
  unfold decode_unwrap.
  destruct (decode r) as [s1 an r1| |]; cbn [mbind io_bind]; try discriminate.
  destruct (decode r1) as [s2 af r2| |]; cbn [mbind io_bind]; try discriminate.
  destruct (Z.eqb_spec 0 an) as [<-|Han]; destruct (Z.eqb_spec 0 af) as [<-|Haf];
    cbn [andb mret io_ret].
  - intros H. injection H as <- <- _. exists names, forms. auto.
  - apply IH; [rewrite !length_app; simpl; lia|].
    rewrite combine_snoc by exact Hl. apply Forall_app_2; [exact Hf|].
    constructor; [congruence|constructor].
  - apply IH; [rewrite !length_app; simpl; lia|].
    rewrite combine_snoc by exact Hl. apply Forall_app_2; [exact Hf|].
    constructor; [congruence|constructor].
  - apply IH; [rewrite !length_app; simpl; lia|].
    rewrite combine_snoc by exact Hl. apply Forall_app_2; [exact Hf|].
    constructor; [congruence|constructor].
Qed.

Lemma abbrev_load_loop_post :
  forall fuel abb r abb' r', abbrev_load_loop fuel abb r = IoOk (abb', r') ->
  exists new, abb' = abb ++ new /\ Forall abbrev_wf new.
Proof.
  induction fuel as [|fuel IH]; intros abb r abb' r'; cbn [abbrev_load_loop];
    [discriminate|].
  unfold decode_unwrap.
  destruct (decode r) as [s1 no r1| |]; cbn [mbind io_bind]; try discriminate.
  destruct (Z.eqb_spec 0 no) as [_|Hno].
  - cbn [mret io_ret]. intros H. injection H as <- _. exists [].
    rewrite app_nil_r. split; [reflexivity|constructor].
  - destruct (decode r1) as [s2 tag r2| |]; cbn [mbind io_bind]; try discriminate.
    destruct (read_le 1 r2) as [[hc r3]| | |]; cbn [mbind io_bind]; try discriminate.
    destruct (abbrev_attr_loop _ _ _ _) as [[[names forms] r4]| | |] eqn:Ha;
      cbn [mbind io_bind]; try discriminate.
    intros H. apply IH in H as (new & -> & Hnew).
    apply abbrev_attr_loop_post in Ha as (n0 & f0 & -> & -> & Hl & Hf);
      [|reflexivity|constructor].
    eexists. rewrite <- app_assoc. split; [reflexivity|].
    constructor; [|exact Hnew]. split; [simpl; congruence|].
    exists n0, f0. auto.
Qed.

(** X23. [DebugAbbRevSection::load] panics when the section offset plus
    the CU's abbreviation offset overflows a [u64]. When it succeeds it
    has only appended records, each with a nonzero code and attribute
    names and forms of equal length that end in the (0, 0) pair and hold
    it nowhere else. *)
Theorem abbrev_load_wf (file : list Z) (sec_offset abbrev_offset : Z)
    (abb_rev : list DebugAbbRevRecord) :
  (modulus64 <= sec_offset + abbrev_offset ->
   abbrev_load file sec_offset abbrev_offset abb_rev = IoPanic) /\
  (forall abb', abbrev_load file sec_offset abbrev_offset abb_rev = IoOk abb' ->
   exists new, abb' = abb_rev ++ new /\ Forall abbrev_wf new).
Proof.
  unfold abbrev_load. split.
  - intros Hov. destruct (Z.leb_spec modulus64 (sec_offset + abbrev_offset));
      [reflexivity|lia].
  - intros abb'. destruct (Z.leb_spec modulus64 (sec_offset + abbrev_offset));
      [discriminate|].
    destruct (abbrev_load_loop _ _ _) as [[abb1 r1]| | |] eqn:Hl;
      cbn [mbind io_bind mret io_ret]; try discriminate.
    intros H'. injection H' as <-. eapply abbrev_load_loop_post. exact Hl.
Qed.

Lemma get_null_term_str_spec_witness :
  get_null_term_str ([0x6D; 0x61; 0x69; 0x6E] ++ 0 :: [7]) = IoOk ("main"%string, [7]) /\
  get_null_term_str [0x6D; 0x61; 0x69; 0x6E] = IoErr UnexpectedEof.
Proof.
  destruct (get_null_term_str_spec [0x6D; 0x61; 0x69; 0x6E] [7]) as [H1 H2].
  - apply Forall_forall. repeat constructor; lia.
  - split; [rewrite H1; vm_compute; reflexivity | exact H2].
Defined.

Lemma load_header_fields_witness :
  load_header (repeat 0 16) = IoPanic /\
  exists h r', load_header sample_line_header = IoOk (h, r') /\
    line_base h = -5 /\ max_ope_len h = 1 /\ is_stmt h = 0 /\ opcode_base h = 2.
Proof.
  split.
  - apply (proj1 (load_header_fields (repeat 0 16))); [simpl; lia | vm_compute; reflexivity].
  - destruct (load_header sample_line_header) as [[h r']| | |] eqn:E;
      try (vm_compute in E; discriminate).
    exists h, r'. split; [reflexivity|].
    destruct (proj2 (proj2 (load_header_fields sample_line_header)) h r' E)
      as (_ & _ & _ & _ & Hmo & His & Hlb & _ & Hob & _).
    rewrite Hmo, His, Hlb, Hob. vm_compute. auto.
Defined.

Lemma u64_decimal_roundtrip_witness :
  from_str_radix 10 64 (u_to_string 624485) = Some 624485 /\
  exists data n r', read_form [] 0x17 [0x10; 0; 0; 0] = Some (data, n, r') /\
    from_str_radix 10 64 data = Some 16.
Proof.
  split.
  - apply (proj1 u64_decimal_roundtrip). lia.
  - destruct (read_form [] 0x17 [0x10; 0; 0; 0]) as [[[data n] r']|] eqn:E;
      [|vm_compute in E; discriminate].
    exists data, n, r'. split; [reflexivity|].
    exact (proj2 u64_decimal_roundtrip [] [0x10; 0; 0; 0] data n r'
             ltac:(repeat constructor; lia) E).
Defined.

Lemma load_debug_line_post_witness :
  load_debug_line sample_line_header [] [] [] = IoErr NotFound /\
  exists dl' h r, load_debug_line sample_line_header
      [mkElfSecHeader 0 1 0 0 0 0 0 0 0 0 0 ".debug_line"]
      [[mkDebugInfoEntry 1 0x10 0x17 "0"]] [] = IoOk dl' /\
    dl' = [mkDebugLineSection 0 [h]] /\ load_header sample_line_header = IoOk (h, r).
Proof.
  split.
  - apply (proj1 (load_debug_line_post sample_line_header [] [] [])). reflexivity.
  - destruct (load_debug_line sample_line_header
      [mkElfSecHeader 0 1 0 0 0 0 0 0 0 0 0 ".debug_line"]
      [[mkDebugInfoEntry 1 0x10 0x17 "0"]] []) as [dl'| | |] eqn:E;
      try (vm_compute in E; discriminate).
    destruct (proj2 (load_debug_line_post sample_line_header
      [mkElfSecHeader 0 1 0 0 0 0 0 0 0 0 0 ".debug_line"]
      [[mkDebugInfoEntry 1 0x10 0x17 "0"]] []) dl' E)
      as (line_h & new & Hs & -> & Hf).
    vm_compute in Hs. injection Hs as <-.
    cbn in Hf. inversion Hf as [|? line ? ? Hl Hnil]; subst.
    inversion Hnil; subst.
    destruct Hl as (offset & h & r & Hp & _ & Hh & ->).
    vm_compute in Hp. injection Hp as <-.
    exists [mkDebugLineSection 0 [h]], h, r. split; [reflexivity|]. split; [reflexivity|].
    exact Hh.
Defined.

Lemma abbrev_load_wf_witness :
  abbrev_load [] (2 ^ 64 - 1) 1 [] = IoPanic /\
  abbrev_load [1; 0x11; 1; 0x10; 0x17; 0; 0; 0] 0 0 [] =
    IoOk [mkDebugAbbRevRecord 1 0x11 1 [0x10; 0] [0x17; 0]] /\
  abbrev_wf (mkDebugAbbRevRecord 1 0x11 1 [0x10; 0] [0x17; 0]).
Proof.
  split; [apply (proj1 (abbrev_load_wf [] (2 ^ 64 - 1) 1 [])); vm_compute; discriminate|].
  assert (E : abbrev_load [1; 0x11; 1; 0x10; 0x17; 0; 0; 0] 0 0 [] =
    IoOk [mkDebugAbbRevRecord 1 0x11 1 [0x10; 0] [0x17; 0]]) by (vm_compute; reflexivity).
  split; [exact E|].
  destruct (proj2 (abbrev_load_wf [1; 0x11; 1; 0x10; 0x17; 0; 0; 0] 0 0 []) _ E)
    as (new & Hnew & Hwf).
  simpl in Hnew. subst new. inversion Hwf. assumption.
Defined.

(* ------------------------------------------------------------------ *)
(** ** The memory map *)

Lemma maps_line_entry (maps : gmap string (list MapInfo)) (l : string) :
  maps_line maps l =
    match line_entry l with
    | None => IoPanic
    | Some (k, info) => IoOk (<[k := default [] (maps !! k) ++ [info]]> maps)
    end.
Proof.
  unfold maps_line, line_entry.
  destruct (split_whitespace l) as [|w0 [|w1 rest]]; cbn [lookup list_lookup];
    [reflexivity| |].
  - destruct (split_char "-"%char w0) as [|a0 [|a1 ?]]; reflexivity.
  - destruct (split_char "-"%char w0) as [|a0 [|a1 ?]]; [reflexivity|reflexivity|].
    destruct rest as [|? [|? [|? [|k ?]]]]; cbn;
      match goal with |- context [maps !! ?key] => destruct (maps !! key) end;
      reflexivity.
Qed.

Lemma maps_load_panic (lines : list string) :
  Exists (fun l => line_entry l = None) lines ->
  forall maps, maps_load maps lines = IoPanic.
Proof.
  induction 1 as [l lines Hl|l lines _ IH]; intros maps; cbn [maps_load];
    rewrite maps_line_entry.
  - rewrite Hl. reflexivity.
  - destruct (line_entry l) as [[k info]|]; cbn [mbind io_bind]; [apply IH|reflexivity].
Qed.

Lemma maps_load_ok_parsed (lines : list string) :
  forall maps maps', maps_load maps lines = IoOk maps' ->
  Forall (fun l => is_Some (line_entry l)) lines.
Proof.
  induction lines as [|l lines IH]; intros maps maps'; cbn [maps_load];
    [constructor|].
  rewrite maps_line_entry.
  destruct (line_entry l) as [[k info]|] eqn:E; cbn [mbind io_bind]; [|discriminate].
  intros H. constructor; [rewrite E; eexists; reflexivity|]. exact (IH _ _ H).
Qed.

Lemma maps_load_grouped (lines : list string) :
  Forall (fun l => is_Some (line_entry l)) lines ->
  forall maps, exists maps', maps_load maps lines = IoOk maps' /\
  forall k, maps' !! k =
    match filter (fun e => e.1 = k) (omap line_entry lines) with
    | [] => maps !! k
    | es => Some (default [] (maps !! k) ++ map snd es)
    end.
Proof.
  induction 1 as [|l lines [[k0 info] Hl] _ IH]; intros maps.
  - exists maps. split; [reflexivity|]. intros k. reflexivity.
  - cbn [maps_load]. rewrite maps_line_entry, Hl. cbn [mbind io_bind].
    destruct (IH (<[k0 := default [] (maps !! k0) ++ [info]]> maps)) as (maps' & Hrun & Hk).
    exists maps'. split; [exact Hrun|]. intros k. rewrite Hk.
    cbn [omap list_omap]. rewrite Hl, filter_cons. cbn [fst].
    destruct (decide (k0 = k)) as [<-|Hne].
    + rewrite lookup_insert_eq.
      destruct (filter _ (omap line_entry lines)) as [|e es]; cbn [default map];
        [reflexivity|]. unfold id. cbn [snd]. rewrite <- app_assoc. reflexivity.
    + rewrite lookup_insert_ne by exact Hne. reflexivity.
Qed.

(** X24. [MemoryMap::load] panics as soon as one line lacks a second
    field or a [-] in its first field. Otherwise it groups the lines by
    file name (the sixth field, or "none"): each name maps to the lists it
    had before followed by the mappings of its lines, in file order; other
    names are left alone. *)
Theorem maps_load_groups (maps : gmap string (list MapInfo)) (lines : list string) :
  (Exists (fun l => line_entry l = None) lines -> maps_load maps lines = IoPanic) /\
  (Forall (fun l => is_Some (line_entry l)) lines ->
   exists maps', maps_load maps lines = IoOk maps' /\
   forall k, maps' !! k =
     match filter (fun e => e.1 = k) (omap line_entry lines) with
     | [] => maps !! k
     | es => Some (default [] (maps !! k) ++ map snd es)
     end).
Proof.
  split.
  - intros H. exact (maps_load_panic lines H maps).
  - intros H. exact (maps_load_grouped lines H maps).
Qed.

Lemma maps_load_groups_witness :
  maps_load ∅ [""%string] = IoPanic /\
  exists maps', maps_load ∅ sample_maps = IoOk maps' /\
    maps' !! "/tmp/a.out"%string =
      Some [mkMapInfo "555555554000" "555555555000" "r--p";
            mkMapInfo "555555555000" "555555556000" "r-xp"]%string /\
    maps' !! "none"%string =
      Some [mkMapInfo "7ffffffde000" "7ffffffff000" "rw-p"]%string.
Proof.
  split.
  - apply (proj1 (maps_load_groups ∅ [""%string])). constructor. reflexivity.
  - destruct (proj2 (maps_load_groups ∅ sample_maps)) as (maps' & Hrun & Hk);
      [unfold sample_maps;
       repeat (apply List.Forall_cons; [eexists; vm_compute; reflexivity|]);
       apply List.Forall_nil|].
    exists maps'. split; [exact Hrun|]. rewrite !Hk. split; vm_compute; reflexivity.
Defined.

(** X25. The entry address of [Debugger::load_elf], read from the maps
    just loaded: it is the start address, parsed as hexadecimal, of the
    first line whose file name is the program's path. It panics when no
    line names the path or that address does not parse. *)
Theorem load_elf_entry_first (lines : list string) (path : string)
    (maps : gmap string (list MapInfo)) :
  maps_load ∅ lines = IoOk maps ->
  load_elf_entry maps path =
    match filter (fun e => e.1 = path) (omap line_entry lines) with
    | [] => IoPanic
    | (_, info) :: _ =>
        match from_str_radix 16 64 (start_address info) with
        | Some entry => IoOk entry
        | None => IoPanic
        end
    end.
Proof.
  intros Hrun.
  destruct (maps_load_grouped lines (maps_load_ok_parsed lines ∅ maps Hrun) ∅)
    as (maps' & Hrun' & Hk).
  rewrite Hrun in Hrun'. injection Hrun' as <-.
  unfold load_elf_entry. rewrite Hk.
  destruct (filter _ (omap line_entry lines)) as [|[k info] es]; [reflexivity|].
  rewrite lookup_empty. cbn [default map snd app lookup list_lookup].
  destruct (from_str_radix 16 64 (start_address info)); reflexivity.
Qed.

Lemma load_elf_entry_first_witness :
  exists maps, maps_load ∅ sample_maps = IoOk maps /\
    load_elf_entry maps "/tmp/a.out" = IoOk 0x555555554000 /\
    load_elf_entry maps "/tmp/b.out" = IoPanic.
Proof.
  destruct (maps_load ∅ sample_maps) as [maps| | |] eqn:E;
    try (vm_compute in E; discriminate).
  exists maps. split; [reflexivity|]. split.
  - rewrite (load_elf_entry_first sample_maps "/tmp/a.out" maps E). vm_compute. reflexivity.
  - rewrite (load_elf_entry_first sample_maps "/tmp/b.out" maps E). vm_compute. reflexivity.
Defined.
